(** * TypeScript Task Manager: a shallow embedding of [src/index.ts]

    The development follows the source file top to bottom: JavaScript
    strings and the built-ins the program calls ([trim], [parseInt],
    template-literal number formatting), the [Task] interface, the
    [TaskManager] class with its five methods, and the [runMenu] loop.

    Conventions.
    - A JavaScript string is the list of its UTF-16 code units.
    - A JavaScript number that holds an id is an integer of [Z].  The
      counter starts at 1 and grows by one per added task, so it is an
      exact integer for every run that performs fewer than 2^53 additions;
      ids typed by the user are the mathematical value read by [parseInt],
      which is the number JavaScript computes below 2^53 in magnitude.
    - Methods run in a small state-and-exception monad over the [World]:
      the manager object, the lines written with [console.log], the answers
      the console will give to the successive prompts, and the [running]
      flag of [runMenu].  The 500 ms timer of [runMenu] is not modelled.
    - Parameters that share their name with a field of [Task] carry a prime
      ([id'], [name'], [description'], [status']). *)

From Stdlib Require Import ZArith NArith Ascii String DecimalString.
From Stdlib Require DecimalPos DecimalZ.
From stdpp Require Import base decidable option numbers list sorting.

Local Open Scope Z_scope.

(** ** JavaScript strings *)

Abbreviation jsstring := (list N).

(** Code units of an ASCII literal of the source. *)
Definition lit (s : string) : jsstring :=
  N_of_ascii <$> list_ascii_of_string s.

(** [WhiteSpace] and [LineTerminator] code points of ECMA-262, the characters
    removed by [String.prototype.trim] and skipped by [parseInt]. *)
Definition isWhiteSpace (c : N) : bool :=
  ((c =? 0x09) || (c =? 0x0A) || (c =? 0x0B) || (c =? 0x0C) || (c =? 0x0D)
   || (c =? 0x20) || (c =? 0xA0) || (c =? 0x1680)
   || ((0x2000 <=? c) && (c <=? 0x200A))
   || (c =? 0x2028) || (c =? 0x2029) || (c =? 0x202F) || (c =? 0x205F)
   || (c =? 0x3000) || (c =? 0xFEFF))%N.

Fixpoint trimStart (s : jsstring) : jsstring :=
  match s with
  | c :: r => if isWhiteSpace c then trimStart r else s
  | [] => []
  end.

Definition trimEnd (s : jsstring) : jsstring :=
  reverse (trimStart (reverse s)).

(** [s.trim()] *)
Definition trim (s : jsstring) : jsstring := trimEnd (trimStart s).

(** Truthiness of a string value: only the empty string is falsy. *)
Definition truthy (s : jsstring) : bool :=
  match s with [] => false | _ :: _ => true end.

(** [a || b] on strings. *)
Definition or_else (a b : jsstring) : jsstring := if truthy a then a else b.

(** A value that is a string, or [null]/[undefined] ([None]). *)
Definition truthy_opt (v : option jsstring) : bool :=
  match v with Some s => truthy s | None => false end.

(** [v || ''] *)
Definition or_empty (v : option jsstring) : jsstring :=
  match v with Some s => s | None => [] end.

(** ** Numbers *)

(** Number-to-string conversion of a template literal [`${n}`], for an
    integer number: decimal digits, with a minus sign when negative.  This
    is what JavaScript prints for every safe integer (below 2^53 in
    magnitude), as all stored ids are; of a larger number JavaScript prints
    the digits of the nearest double, in exponent form from 10^21 on.
    Statements about the digits printed are made for safe integers. *)
Definition Number_toString (n : Z) : jsstring :=
  lit (NilZero.string_of_int (Z.to_int n)).

(** Value of a code unit as a digit of radix [R], if it is one. *)
Definition digitValue (R : Z) (c : N) : option Z :=
  let v :=
    if ((0x30 <=? c) && (c <=? 0x39))%N then Some (Z.of_N c - 0x30)
    else if ((0x61 <=? c) && (c <=? 0x7A))%N then Some (Z.of_N c - 0x61 + 10)
    else if ((0x41 <=? c) && (c <=? 0x5A))%N then Some (Z.of_N c - 0x41 + 10)
    else None in
  match v with
  | Some d => if d <? R then Some d else None
  | None => None
  end.

(** Longest prefix of radix-[R] digits, read left to right; [acc] is the
    value read so far and [seen] tells whether a digit has been read. *)
Fixpoint parseDigits (R : Z) (s : jsstring) (seen : bool) (acc : Z) : option Z :=
  match s with
  | c :: r =>
      match digitValue R c with
      | Some d => parseDigits R r true (acc * R + d)
      | None => if seen then Some acc else None
      end
  | [] => if seen then Some acc else None
  end.

(** [0x] / [0X] prefix test of [parseInt]. *)
Definition stripHexPrefix (s : jsstring) : option jsstring :=
  match s with
  | c0 :: c1 :: r =>
      if ((c0 =? 0x30) && ((c1 =? 0x78) || (c1 =? 0x58)))%N then Some r else None
  | _ => None
  end.

(** [parseInt(s)] with no radix argument (ECMA-262, 19.2.5): skip leading
    white space, read an optional sign, switch to radix 16 after a [0x]
    prefix, read the longest run of digits and ignore what follows.  [None]
    is [NaN], for every text.  [Some n] is the integer the digits denote,
    which is the JavaScript number itself up to 2^53 in magnitude; beyond,
    JavaScript rounds it to the nearest double, or to [Infinity].
    Statements about the number read are made for safe integers. *)
Definition parseInt (s : jsstring) : option Z :=
  let S0 := trimStart s in
  let '(sign, S1) :=
    match S0 with
    | c :: r =>
        if (c =? 0x2D)%N then (-1, r)
        else if (c =? 0x2B)%N then (1, r)
        else (1, S0)
    | [] => (1, S0)
    end in
  let '(R, S2) :=
    match stripHexPrefix S1 with
    | Some r => (16, r)
    | None => (10, S1)
    end in
  match parseDigits R S2 false 0 with
  | Some mathInt => Some (sign * mathInt)
  | None => None
  end.

(** ** The [Task] interface *)

Record Task : Type := mkTask {
  id : Z;
  name : jsstring;
  description : jsstring;
  status : jsstring
}.

#[global] Instance Task_eq_dec : EqDecision Task.
Proof. solve_decision. Defined.

(** [task.status = s] on a task object. *)
Definition set_status (s : jsstring) (task : Task) : Task :=
  {| id := task.(id); name := task.(name);
     description := task.(description); status := s |}.

(** ** The [TaskManager] object and the world around it *)

Record TaskManager : Type := mkTaskManager {
  tasks : list Task;
  nextId : Z
}.

(** [new TaskManager()] *)
Definition new_TaskManager : TaskManager := {| tasks := []; nextId := 1 |}.

Record Error : Type := mkError { message : jsstring }.

Record World : Type := mkWorld {
  manager : TaskManager;          (* the module-level [manager] object *)
  console : list jsstring;        (* lines written by [console.log], oldest first *)
  stdin : nat -> option jsstring; (* answer of the k-th call of [promptSync] *)
  asked : nat;                    (* number of prompts answered so far *)
  running : bool                  (* the local [running] of [runMenu] *)
}.

(** ** State and exceptions *)

Inductive completion (A : Type) : Type :=
| Normal (a : A)
| Throw (e : Error).
Arguments Normal {A} a.
Arguments Throw {A} e.

Definition M (A : Type) : Type := World -> completion A * World.

#[global] Instance M_ret : MRet M := λ A a w, (Normal a, w).

#[global] Instance M_bind : MBind M := λ A B f m w,
  match m w with
  | (Normal a, w') => f a w'
  | (Throw e, w') => (Throw e, w')
  end.

(** [throw e] *)
Definition throw {A} (e : Error) : M A := λ w, (Throw e, w).

(** [try { body } catch (error) { handler }] *)
Definition try_catch {A} (body : M A) (handler : Error -> M A) : M A := λ w,
  match body w with
  | (Normal a, w') => (Normal a, w')
  | (Throw e, w') => handler e w'
  end.

(** Functional updates of the world's fields. *)
Definition with_manager (m : TaskManager) (w : World) : World :=
  {| manager := m; console := w.(console); stdin := w.(stdin);
     asked := w.(asked); running := w.(running) |}.

Definition with_tasks (ts : list Task) (w : World) : World :=
  with_manager {| tasks := ts; nextId := w.(manager).(nextId) |} w.

Definition logged (lines : list jsstring) (w : World) : World :=
  {| manager := w.(manager); console := w.(console) ++ lines;
     stdin := w.(stdin); asked := w.(asked); running := w.(running) |}.

Definition prompted (w : World) : World :=
  {| manager := w.(manager); console := w.(console); stdin := w.(stdin);
     asked := S w.(asked); running := w.(running) |}.

Definition with_running (b : bool) (w : World) : World :=
  {| manager := w.(manager); console := w.(console); stdin := w.(stdin);
     asked := w.(asked); running := b |}.

Definition get_tasks : M (list Task) := λ w, (Normal w.(manager).(tasks), w).

Definition set_tasks (ts : list Task) : M unit := λ w,
  (Normal tt, with_tasks ts w).

(** [this.nextId++]: yields the old value and stores its successor. *)
Definition post_increment_nextId : M Z := λ w,
  (Normal w.(manager).(nextId),
   with_manager {| tasks := w.(manager).(tasks);
                   nextId := w.(manager).(nextId) + 1 |} w).

(** [console.log(line)] *)
Definition console_log (line : jsstring) : M unit := λ w,
  (Normal tt, logged [line] w).

(** [promptSync(ask)]: the next answer of the console; [None] stands for
    [null].  The question itself is echoed by the prompt library and is not
    a [console.log] line. *)
Definition promptSync (ask : jsstring) : M (option jsstring) := λ w,
  (Normal (w.(stdin) w.(asked)), prompted w).

Definition get_running : M bool := λ w, (Normal w.(running), w).

Definition set_running (b : bool) : M unit := λ w,
  (Normal tt, with_running b w).

(** [for (const x of l) { body }] *)
Fixpoint for_of {A} (l : list A) (body : A -> M unit) : M unit :=
  match l with
  | [] => mret tt
  | x :: r => body x ;; for_of r body
  end.

(** ** Text of the source's string literals *)

(** The line-feed escape [\n]. *)
Definition nl : jsstring := [0x0A%N].

(** The pictographs in front of the messages, as the code units stored in
    the source file. *)
Definition icon_check : jsstring := [0x201A; 0xFA; 0xD6]%N.
Definition icon_bin : jsstring := [0xF8FF; 0xFC; 0xF3; 0xEB; 0xD4; 0x220F; 0xE8]%N.
Definition icon_hourglass : jsstring := [0x201A; 0xE8; 0x2265]%N.
Definition icon_fire : jsstring := [0xF8FF; 0xFC; 0xEE; 0x2022]%N.
Definition icon_memo : jsstring := [0xF8FF; 0xFC; 0xEC; 0xF9]%N.
Definition icon_cross : jsstring := [0x201A; 0xF9; 0xE5]%N.
Definition icon_wave : jsstring := [0xF8FF; 0xFC; 0xEB; 0xE3]%N.
Definition icon_siren : jsstring := [0xF8FF; 0xFC; 0xF6; 0xAE]%N.

Definition Pending : jsstring := lit "Pending".
Definition Completed : jsstring := lit "Completed".
Definition placeholder : jsstring := lit "No description provided.".

(** ** Methods of [TaskManager] *)

Definition addTask (name' description' : jsstring) : M unit :=
  if negb (truthy (trim name')) then
    throw (mkError (lit "Task name cannot be empty."))
  else
    fresh ← post_increment_nextId;
    let newTask :=
      {| id := fresh;
         name := trim name';
         description := or_else (trim description') placeholder;
         status := Pending |} in
    ts ← get_tasks;
    set_tasks (ts ++ [newTask]);;
    console_log (nl ++ icon_check ++ lit " Task " ++ Number_toString newTask.(id)
                 ++ lit ": '" ++ newTask.(name)
                 ++ lit "' added successfully.").

Definition removeTask (id' : Z) : M unit :=
  ts ← get_tasks;
  let initialLength := length ts in
  set_tasks (filter (λ task, task.(id) ≠ id') ts);;
  ts' ← get_tasks;
  if decide (length ts' = initialLength) then
    throw (mkError (lit "Task with ID " ++ Number_toString id' ++ lit " not found."))
  else
    console_log (nl ++ icon_bin ++ lit " Task ID " ++ Number_toString id'
                 ++ lit " removed.").

Definition listTasks : M unit :=
  console_log (nl ++ lit "--- Current Tasks ---");;
  ts ← get_tasks;
  if decide (length ts = 0%nat) then
    console_log (lit "Your task list is empty!")
  else
    (for_of ts (λ task,
       let statusIcon :=
         if decide (task.(status) = Completed) then icon_check else icon_hourglass in
       console_log (statusIcon ++ lit " [" ++ Number_toString task.(id) ++ lit "] "
                    ++ task.(name) ++ lit " - Status: " ++ task.(status)));;
     console_log (lit "---------------------")).

Definition clearTasks : M unit :=
  set_tasks [];;
  console_log (nl ++ icon_fire ++ lit " All tasks cleared.").

Definition updateTaskStatus (id' : Z) (status' : jsstring) : M unit :=
  if decide (status' ≠ Pending ∧ status' ≠ Completed) then
    throw (mkError (lit "Invalid status: '" ++ status'
                    ++ lit "'. Must be 'Pending' or 'Completed'."))
  else
    ts ← get_tasks;
    match list_find (λ task, task.(id) = id') ts with
    | None =>
        throw (mkError (lit "Task with ID " ++ Number_toString id'
                        ++ lit " not found for update."))
    | Some (k, taskToUpdate) =>
        set_tasks (<[k := set_status status' taskToUpdate]> ts);;
        console_log (nl ++ icon_memo ++ lit " Task " ++ Number_toString id'
                     ++ lit " status updated to: " ++ status')
    end.

(** ** The menu *)

Definition displayMenu : M unit :=
  console_log (nl ++ lit "--- Task Manager Menu ---");;
  console_log (lit "1. Add New Task");;
  console_log (lit "2. List All Tasks");;
  console_log (lit "3. Remove Task by ID");;
  console_log (lit "4. Update Task Status");;
  console_log (lit "5. Clear All Tasks");;
  console_log (lit "6. Exit");;
  console_log (lit "-------------------------").

(** The [switch (choice.trim())] statement.  In the branches that read an
    id, [isNaN(id)] holds exactly in the [None] case of [parseInt]. *)
Definition menu_switch (selected : jsstring) : M unit :=
  if decide (selected = lit "1") then
    name' ← promptSync (lit "Task Name: ");
    description' ← promptSync (lit "Task Description (Optional): ");
    addTask (or_empty name') (or_empty description')
  else if decide (selected = lit "2") then
    listTasks
  else if decide (selected = lit "3") then
    idStr ← promptSync (lit "Enter Task ID to remove: ");
    let id' := parseInt (trim (or_empty idStr)) in
    match id' with
    | None => throw (mkError (lit "Invalid ID entered."))
    | Some n => removeTask n
    end
  else if decide (selected = lit "4") then
    listTasks;;
    idStr ← promptSync (lit "Enter Task ID to update status: ");
    let id' := parseInt (trim (or_empty idStr)) in
    match id' with
    | None => throw (mkError (lit "Invalid ID entered."))
    | Some n =>
        statusStr ← promptSync (lit "New Status (Pending/Completed): ");
        let status' := trim (or_empty statusStr) in
        updateTaskStatus n status'
    end
  else if decide (selected = lit "5") then
    clearTasks
  else if decide (selected = lit "6") then
    console_log (nl ++ icon_wave ++ lit " Exiting Task Manager. Goodbye!");;
    set_running false
  else
    console_log (icon_cross
                 ++ lit " Invalid selection. Please choose a number between 1 and 6.").

(** The body of the [try] block of one iteration.  The [continue] of the
    no-input branch skips the rest of the block; the 500 ms timer after a
    completed action only delays the next iteration. *)
Definition try_block (choice : option jsstring) : M unit :=
  if negb (truthy_opt choice) then
    console_log (icon_cross ++ lit " No input received. Please try again.")
  else
    (menu_switch (trim (or_empty choice));;
     get_running ≫= λ r : bool,
       if r then console_log (nl ++ lit "Processing... (Simulating Async Delay)")
       else mret tt).

(** The [catch (error)] block. *)
Definition catch_block (error : Error) : M unit :=
  console_log (nl ++ icon_siren ++ lit " Operation Failed: " ++ error.(message)).

(** One iteration of [while (running)]. *)
Definition cycle : M unit :=
  displayMenu;;
  choice ← promptSync (lit "Enter your choice (1-6): ");
  try_catch (try_block choice) catch_block.

(** [while (running) { ... }], for at most [fuel] iterations. *)
Fixpoint while_running (fuel : nat) : M unit :=
  match fuel with
  | O => mret tt
  | S n =>
      get_running ≫= λ r : bool,
        if r then (cycle;; while_running n) else mret tt
  end.

Definition runMenu (fuel : nat) : M unit :=
  set_running true;;
  while_running fuel.

(** The world at program start: a fresh manager, nothing printed, and the
    console answers [answers]. *)
Definition initial_world (answers : nat -> option jsstring) : World :=
  {| manager := new_TaskManager; console := []; stdin := answers;
     asked := 0; running := true |}.

(** A console that gives the listed answers and then empty lines. *)
Definition script (l : list jsstring) : nat -> option jsstring :=
  λ k : nat, match l !! k with Some s => Some s | None => Some [] end.

(** ** Vocabulary of the statements *)

(** The line [addTask] prints for the task it has created. *)
Definition added_line (t : Task) : jsstring :=
  nl ++ icon_check ++ lit " Task " ++ Number_toString t.(id)
  ++ lit ": '" ++ t.(name) ++ lit "' added successfully.".

Definition removed_line (id' : Z) : jsstring :=
  nl ++ icon_bin ++ lit " Task ID " ++ Number_toString id' ++ lit " removed.".

Definition not_found (id' : Z) : Error :=
  mkError (lit "Task with ID " ++ Number_toString id' ++ lit " not found.").

(** The world after two additions to the fresh store. *)
Definition two_tasks : World :=
  (addTask (lit "Task B") (lit "desc")
     (addTask (lit "Task A") [] (initial_world (script []))).2).2.

Definition invalid_status (status' : jsstring) : Error :=
  mkError (lit "Invalid status: '" ++ status'
           ++ lit "'. Must be 'Pending' or 'Completed'.").

Definition not_found_for_update (id' : Z) : Error :=
  mkError (lit "Task with ID " ++ Number_toString id' ++ lit " not found for update.").

Definition updated_line (id' : Z) (status' : jsstring) : jsstring :=
  nl ++ icon_memo ++ lit " Task " ++ Number_toString id'
  ++ lit " status updated to: " ++ status'.

(** The line [listTasks] prints for a task. *)
Definition task_line (task : Task) : jsstring :=
  (if decide (task.(status) = Completed) then icon_check else icon_hourglass)
  ++ lit " [" ++ Number_toString task.(id) ++ lit "] "
  ++ task.(name) ++ lit " - Status: " ++ task.(status).

(** [preserves P m]: when [P] holds of the world before [m], it holds of the
    world [m] leaves, whether [m] completes or throws. *)
Definition preserves {A} (P : World → Prop) (m : M A) : Prop :=
  ∀ w, P w → P (m w).2.

(** Ids are unique and each is below the counter. *)
Definition store_ok (m : TaskManager) : Prop :=
  NoDup (id <$> m.(tasks)) ∧ Forall (λ i, i < m.(nextId)) (id <$> m.(tasks)).

Definition world_ok (w : World) : Prop := store_ok w.(manager).

(** A call of one of the public methods of the manager. *)
Inductive call : Type :=
| CallAdd (name' description' : jsstring)
| CallRemove (id' : Z)
| CallList
| CallUpdateStatus (id' : Z) (status' : jsstring)
| CallClear.

Definition perform (c : call) : M unit :=
  match c with
  | CallAdd name' description' => addTask name' description'
  | CallRemove id' => removeTask id'
  | CallList => listTasks
  | CallUpdateStatus id' status' => updateTaskStatus id' status'
  | CallClear => clearTasks
  end.

(** The world after a sequence of calls; a call that throws leaves the world
    it leaves, and the sequence goes on, as under the [catch] of the menu. *)
Fixpoint perform_all (cs : list call) (w : World) : World :=
  match cs with
  | [] => w
  | c :: cs' => perform_all cs' (perform c w).2
  end.

(** The id handed out by a call: that of the task at the end of the
    collection after an [addTask] that completed. *)
Definition assigned_by (c : call) (w : World) : list Z :=
  match c, perform c w with
  | CallAdd _ _, (Normal _, w') => option_list (id <$> last w'.(manager).(tasks))
  | _, _ => []
  end.

(** The ids handed out along a sequence of calls, in order. *)
Fixpoint assigned_ids (cs : list call) (w : World) : list Z :=
  match cs with
  | [] => []
  | c :: cs' => assigned_by c w ++ assigned_ids cs' (perform c w).2
  end.

(** The calls of [addTask] with a name that is not blank. *)
Definition successful_add (c : call) : bool :=
  match c with
  | CallAdd name' _ => bool_decide (trim name' ≠ [])
  | _ => false
  end.

Fixpoint count_successful_adds (cs : list call) : nat :=
  match cs with
  | [] => 0
  | c :: cs' => (if successful_add c then 1 else 0) + count_successful_adds cs'
  end.

Definition menu_lines : list jsstring :=
  [nl ++ lit "--- Task Manager Menu ---";
   lit "1. Add New Task";
   lit "2. List All Tasks";
   lit "3. Remove Task by ID";
   lit "4. Update Task Status";
   lit "5. Clear All Tasks";
   lit "6. Exit";
   lit "-------------------------"].

Definition invalid_id : Error := mkError (lit "Invalid ID entered.").

(** A decimal digit, as a code unit. *)
Definition isDecimalDigit (c : N) : bool := ((0x30 <=? c) && (c <=? 0x39))%N.

(** The number denoted by the decimal digits [d] read after a prefix of
    value [acc]. *)
Fixpoint uint_value (d : Decimal.uint) (acc : Z) : Z :=
  match d with
  | Decimal.Nil => acc
  | Decimal.D0 l => uint_value l (acc * 10 + 0)
  | Decimal.D1 l => uint_value l (acc * 10 + 1)
  | Decimal.D2 l => uint_value l (acc * 10 + 2)
  | Decimal.D3 l => uint_value l (acc * 10 + 3)
  | Decimal.D4 l => uint_value l (acc * 10 + 4)
  | Decimal.D5 l => uint_value l (acc * 10 + 5)
  | Decimal.D6 l => uint_value l (acc * 10 + 6)
  | Decimal.D7 l => uint_value l (acc * 10 + 7)
  | Decimal.D8 l => uint_value l (acc * 10 + 8)
  | Decimal.D9 l => uint_value l (acc * 10 + 9)
  end.

(** What [parseInt] does once white space and sign have been read: the
    test of the [0x] prefix and the reading of the digits. *)
Definition parseInt_unsigned (sign : Z) (S1 : jsstring) : option Z :=
  let '(R, S2) :=
    match stripHexPrefix S1 with
    | Some r => (16, r)
    | None => (10, S1)
    end in
  match parseDigits R S2 false 0 with
  | Some mathInt => Some (sign * mathInt)
  | None => None
  end.

(** A stored task as [addTask] and [updateTaskStatus] leave it: a name
    that is not empty and is its own trimmed form, a description that is not
    empty, and one of the two statuses. *)
Definition task_ok (t : Task) : Prop :=
  t.(name) ≠ []
  ∧ trim t.(name) = t.(name)
  ∧ t.(description) ≠ []
  ∧ (t.(status) = Pending ∨ t.(status) = Completed).

(** Ids grow along the collection, lie between 1 and the counter, and the
    collection has fewer tasks than the counter says. *)
Definition ids_ok (m : TaskManager) : Prop :=
  StronglySorted Z.lt (id <$> m.(tasks))
  ∧ Forall (λ i, 1 ≤ i < m.(nextId)) (id <$> m.(tasks))
  ∧ Z.of_nat (length m.(tasks)) < m.(nextId).

(** The errors of the methods and when each is thrown: [thrown_by c m e]
    reads "on the manager [m], the call [c] throws [e]". *)
Definition thrown_by (c : call) (m : TaskManager) (e : Error) : Prop :=
  match c with
  | CallAdd name' _ =>
      trim name' = [] ∧ e = mkError (lit "Task name cannot be empty.")
  | CallRemove id' =>
      (∀ t, t ∈ m.(tasks) → t.(id) ≠ id') ∧ e = not_found id'
  | CallList => False
  | CallUpdateStatus id' status' =>
      (status' ≠ Pending ∧ status' ≠ Completed ∧ e = invalid_status status')
      ∨ ((status' = Pending ∨ status' = Completed)
         ∧ (∀ t, t ∈ m.(tasks) → t.(id) ≠ id')
         ∧ e = not_found_for_update id')
  | CallClear => False
  end.

(** The five errors of the program. *)
Definition program_error (e : Error) : Prop :=
  e = mkError (lit "Task name cannot be empty.")
  ∨ e = invalid_id
  ∨ (∃ id', e = not_found id')
  ∨ (∃ id', e = not_found_for_update id')
  ∨ (∃ status', e = invalid_status status').

(** [Number.isSafeInteger(n)]: below 2^53 in magnitude.  In this range a
    JavaScript number holds the integer exactly, [parseInt] returns exactly
    the integer its digits denote, and a template literal prints it in plain
    decimal, so [parseInt] and [Number_toString] above are the built-ins
    themselves. *)
Definition isSafeInteger (n : Z) : bool := Z.abs n <? 2 ^ 53.

(** A hexadecimal digit, as a code unit. *)
Definition isHexDigit (c : N) : bool :=
  (isDecimalDigit c
   || ((0x61 <=? c) && (c <=? 0x66))
   || ((0x41 <=? c) && (c <=? 0x46)))%N.

(** The value of a digit: ['0'..'9'] are 0..9, ['a'..'f'] and ['A'..'F'] are
    10..15. *)
Definition digit_of (c : N) : Z :=
  if isDecimalDigit c then Z.of_N c - 0x30
  else if (0x61 <=? c)%N then Z.of_N c - 0x61 + 10
  else Z.of_N c - 0x41 + 10.

(** The integer a run of digits denotes in radix [R]. *)
Definition numeral_value (R : Z) (ds : jsstring) : Z :=
  foldl (λ acc c, acc * R + digit_of c) 0 ds.

(** No sign, [+] or [-]. *)
Definition is_sign (sgn : jsstring) : Prop :=
  sgn = [] ∨ sgn = [0x2B%N] ∨ sgn = [0x2D%N].

Definition sign_value (sgn : jsstring) : Z :=
  if decide (sgn = [0x2D%N]) then -1 else 1.

(** [reads_as s n]: the text [s] begins with a numeral that denotes [n].
    The numeral is an optional sign followed
    - either by decimal digits, at least one, as many as there are, that do
      not start a [0x] prefix;
    - or by [0x] or [0X] and hexadecimal digits, at least one, as many as
      there are.
    What follows the digits is free. *)
Inductive reads_as : jsstring → Z → Prop :=
| reads_decimal (sgn ds rest : jsstring) :
    is_sign sgn →
    ds ≠ [] →
    Forall (λ c, isDecimalDigit c = true) ds →
    isDecimalDigit <$> head rest ≠ Some true →
    (ds = [0x30%N] → head rest ≠ Some 0x78%N ∧ head rest ≠ Some 0x58%N) →
    reads_as (sgn ++ ds ++ rest) (sign_value sgn * numeral_value 10 ds)
| reads_hexadecimal (sgn hs rest : jsstring) (x : N) :
    is_sign sgn →
    x = 0x78%N ∨ x = 0x58%N →
    hs ≠ [] →
    Forall (λ c, isHexDigit c = true) hs →
    isHexDigit <$> head rest ≠ Some true →
    reads_as (sgn ++ 0x30%N :: x :: hs ++ rest)
      (sign_value sgn * numeral_value 16 hs).


(** * Properties *)

Arguments lit : simpl never.
Arguments Number_toString : simpl never.

(** Unfolds the monadic plumbing of a method body. *)
Ltac run_body :=
  unfold mbind, M_bind, mret, M_ret, throw, get_tasks, set_tasks,
    post_increment_nextId, console_log, promptSync, get_running, set_running;
  simpl.

(** ** Worked examples of the built-ins *)

Example trim_ex : trim (lit "  Buy milk ") = lit "Buy milk".
Proof. reflexivity. Qed.

Example parseInt_ex1 : parseInt (lit "42") = Some 42.
Proof. reflexivity. Qed.

Example parseInt_ex2 : parseInt (lit "-7") = Some (-7).
Proof. reflexivity. Qed.

Example parseInt_ex3 : parseInt (lit "abc") = None.
Proof. reflexivity. Qed.

Example parseInt_ex4 : parseInt (lit "12abc") = Some 12.
Proof. reflexivity. Qed.

Example parseInt_ex5 : parseInt (lit "0x1F") = Some 31.
Proof. reflexivity. Qed.

Example parseInt_ex6 : parseInt (lit "") = None.
Proof. reflexivity. Qed.

Example Number_toString_ex : Number_toString 12 = lit "12".
Proof. reflexivity. Qed.

(** ** Strings *)

Lemma trimStart_nil_iff (s : jsstring) :
  trimStart s = [] ↔ Forall (λ c, isWhiteSpace c = true) s.
Proof.
  induction s as [|c r IH]; simpl.
  - split; [constructor | reflexivity].
  - destruct (isWhiteSpace c) eqn:Hc.
    + rewrite IH. split.
      * intros Hr. constructor; assumption.
      * intros Hall. inversion Hall; assumption.
    + split; [discriminate |].
      intros Hall. inversion Hall as [|? ? Hc' ?]. congruence.
Qed.

(** What is left by [trimStart] does not begin with white space. *)
Lemma trimStart_head (s : jsstring) (c : N) (r : jsstring) :
  trimStart s = c :: r → isWhiteSpace c = false.
Proof.
  induction s as [|d q IH]; simpl; [discriminate |].
  destruct (isWhiteSpace d) eqn:Hd; [exact IH |].
  intros [= -> _]. exact Hd.
Qed.

(** The trimmed form is empty exactly for the strings made of white space
    only (the empty string among them). *)
Lemma trim_nil_iff (s : jsstring) :
  trim s = [] ↔ Forall (λ c, isWhiteSpace c = true) s.
Proof.
  rewrite <- trimStart_nil_iff. unfold trim, trimEnd.
  split.
  - intros H. apply (f_equal reverse) in H.
    rewrite reverse_involutive, reverse_nil in H.
    apply trimStart_nil_iff in H. rewrite Forall_reverse in H.
    destruct (trimStart s) as [|c r] eqn:Hs; [reflexivity |].
    apply trimStart_head in Hs. inversion H; congruence.
  - intros ->. reflexivity.
Qed.

Lemma truthy_false_iff (s : jsstring) : truthy s = false ↔ s = [].
Proof. destruct s; simpl; split; congruence. Qed.

Lemma or_else_decide (a b : jsstring) :
  or_else a b = if decide (a = []) then b else a.
Proof. destruct a; reflexivity. Qed.

(** ** [addTask] *)

(** The whole effect of a successful [addTask]. *)
Lemma addTask_run (name' description' : jsstring) (w : World) :
  trim name' ≠ [] →
  let t := {| id := w.(manager).(nextId);
              name := trim name';
              description := or_else (trim description') placeholder;
              status := Pending |} in
  addTask name' description' w =
    (Normal tt,
     logged [added_line t]
       (with_manager {| tasks := w.(manager).(tasks) ++ [t];
                        nextId := w.(manager).(nextId) + 1 |} w)).
Proof.
  intros Hname. unfold addTask.
  destruct (truthy (trim name')) eqn:Htr.
  - reflexivity.
  - apply truthy_false_iff in Htr. contradiction.
Qed.

Lemma addTask_throw (name' description' : jsstring) (w : World) :
  trim name' = [] →
  addTask name' description' w =
    (Throw (mkError (lit "Task name cannot be empty.")), w).
Proof. intros Hname. unfold addTask. rewrite Hname. reflexivity. Qed.

(** C3. When the trimmed name is empty (the name is empty or made of white
    space only), [addTask] throws the error 'Task name cannot be empty.',
    the program's validation error, and leaves the world as it was: the
    task collection and the next-id counter are those of before the call. *)
Theorem addTask_rejects_blank_name (name' description' : jsstring) (w : World) :
  trim name' = [] →
  ∃ w', addTask name' description' w
        = (Throw (mkError (lit "Task name cannot be empty.")), w')
     ∧ w' = w
     ∧ w'.(manager).(tasks) = w.(manager).(tasks)
     ∧ w'.(manager).(nextId) = w.(manager).(nextId).
Proof.
  intros Hname. exists w. rewrite addTask_throw by assumption. auto.
Qed.

Lemma addTask_rejects_blank_name_witness :
  trim (lit "   ") = []
  ∧ ∃ w', addTask (lit "   ") (lit "x") (initial_world (script []))
          = (Throw (mkError (lit "Task name cannot be empty.")), w')
       ∧ w' = initial_world (script [])
       ∧ w'.(manager).(tasks) = (initial_world (script [])).(manager).(tasks)
       ∧ w'.(manager).(nextId) = (initial_world (script [])).(manager).(nextId).
Proof.
  split; [reflexivity |].
  apply (addTask_rejects_blank_name (lit "   ") (lit "x")). reflexivity.
Defined.

(** C4. With a name whose trimmed form is not empty, [addTask] completes and
    the collection is the old one followed by the new task: its name is the
    trimmed name, its description the trimmed description or, when that is
    empty, 'No description provided.', its status 'Pending' and its id the
    value the counter had; the counter is one more afterwards. *)
Theorem addTask_appends_new_task (name' description' : jsstring) (w : World) :
  trim name' ≠ [] →
  ∃ w' t,
    addTask name' description' w = (Normal tt, w')
    ∧ w'.(manager).(tasks) = w.(manager).(tasks) ++ [t]
    ∧ t.(id) = w.(manager).(nextId)
    ∧ t.(name) = trim name'
    ∧ t.(description) = (if decide (trim description' = [])
                         then lit "No description provided."
                         else trim description')
    ∧ t.(status) = lit "Pending"
    ∧ w'.(manager).(nextId) = w.(manager).(nextId) + 1.
Proof.
  intros Hname. eexists _, _. split.
  - apply addTask_run. assumption.
  - simpl. rewrite or_else_decide. repeat split; reflexivity.
Qed.

Lemma addTask_appends_new_task_witness :
  trim (lit "Buy milk") ≠ []
  ∧ ∃ w' t,
      addTask (lit "Buy milk") [] (initial_world (script [])) = (Normal tt, w')
      ∧ w'.(manager).(tasks) = (initial_world (script [])).(manager).(tasks) ++ [t]
      ∧ t.(id) = (initial_world (script [])).(manager).(nextId)
      ∧ t.(name) = trim (lit "Buy milk")
      ∧ t.(description) = (if decide (trim [] = [])
                           then lit "No description provided."
                           else trim [])
      ∧ t.(status) = lit "Pending"
      ∧ w'.(manager).(nextId) = (initial_world (script [])).(manager).(nextId) + 1.
Proof.
  split; [discriminate |].
  apply (addTask_appends_new_task (lit "Buy milk") []). discriminate.
Defined.

(** C2, as stated, fails: [addTask] is a [void] method and it prints.  After
    [addTask('Buy milk', '')] on the fresh world the console is not what it
    was. *)
Lemma addTask_prints_counterexample :
  ¬ (∃ w', addTask (lit "Buy milk") [] (initial_world (script []))
           = (Normal tt, w')
         ∧ w'.(console) = (initial_world (script [])).(console)).
Proof.
  intros (w' & Hrun & Hcon).
  rewrite addTask_run in Hrun by discriminate.
  injection Hrun as <-. simpl in Hcon. discriminate Hcon.
Qed.

(** C2, amended.  With a name whose trimmed form is not empty, [addTask]
    returns no value; besides storing the created task (assigned id, trimmed
    name, stored description, status 'Pending') and advancing the counter,
    it writes one line to the console, naming the id and the name of the
    task; prompts, pending answers and the loop flag are untouched. *)
Theorem addTask_void_and_prints (name' description' : jsstring) (w : World) :
  trim name' ≠ [] →
  ∃ w' t,
    addTask name' description' w = (Normal tt, w')
    ∧ t = {| id := w.(manager).(nextId);
             name := trim name';
             description := or_else (trim description') placeholder;
             status := Pending |}
    ∧ w'.(manager) = {| tasks := w.(manager).(tasks) ++ [t];
                        nextId := w.(manager).(nextId) + 1 |}
    ∧ w'.(console) = w.(console)
        ++ [nl ++ icon_check ++ lit " Task " ++ Number_toString t.(id)
            ++ lit ": '" ++ t.(name) ++ lit "' added successfully."]
    ∧ w'.(stdin) = w.(stdin)
    ∧ w'.(asked) = w.(asked)
    ∧ w'.(running) = w.(running).
Proof.
  intros Hname. eexists _, _. split.
  - apply addTask_run. assumption.
  - repeat split; reflexivity.
Qed.

Lemma addTask_void_and_prints_witness :
  trim (lit " Task B ") ≠ []
  ∧ ∃ w' t,
      addTask (lit " Task B ") (lit "desc") (initial_world (script [])) = (Normal tt, w')
      ∧ t = {| id := 1; name := lit "Task B"; description := lit "desc";
               status := Pending |}
      ∧ w'.(manager) = {| tasks := [] ++ [t]; nextId := 1 + 1 |}
      ∧ w'.(console) =
          [] ++ [nl ++ icon_check ++ lit " Task " ++ Number_toString t.(id)
                 ++ lit ": '" ++ t.(name) ++ lit "' added successfully."]
      ∧ w'.(stdin) = script []
      ∧ w'.(asked) = 0%nat
      ∧ w'.(running) = true.
Proof.
  split; [discriminate |].
  apply (addTask_void_and_prints (lit " Task B ") (lit "desc")
           (initial_world (script []))).
  discriminate.
Defined.

(** ** [removeTask] *)

Lemma with_tasks_same (w : World) : with_tasks w.(manager).(tasks) w = w.
Proof. destruct w as [[ts n] out inp k r]. reflexivity. Qed.

(** A filter that keeps the length keeps the list. *)
Lemma filter_same_length {A} (P : A → Prop) `{!∀ x, Decision (P x)} (l : list A) :
  length (filter P l) = length l → filter P l = l.
Proof.
  induction l as [|x l IH]; [reflexivity |].
  rewrite filter_cons. destruct (decide (P x)) as [HP | HP]; simpl.
  - intros [= Hlen]. f_equal. apply IH, Hlen.
  - intros Hlen. pose proof (length_filter P l). lia.
Qed.

Lemma filter_keeps_all {A} (P : A → Prop) `{!∀ x, Decision (P x)} (l : list A) :
  Forall P l → filter P l = l.
Proof.
  induction 1 as [|x l HP _ IH]; [reflexivity |].
  rewrite filter_cons_True by assumption. f_equal. exact IH.
Qed.

(** In a collection with unique ids, filtering out the id of one task drops
    that task and nothing else. *)
Lemma filter_out_unique_id (l1 l2 : list Task) (t : Task) :
  NoDup (id <$> (l1 ++ t :: l2)) →
  filter (λ task, task.(id) ≠ t.(id)) (l1 ++ t :: l2) = l1 ++ l2.
Proof.
  intros Hnd. rewrite fmap_app, fmap_cons in Hnd.
  apply NoDup_app in Hnd as (_ & Hl1 & Hnd2).
  apply NoDup_cons in Hnd2 as [Hl2 _].
  rewrite filter_app, filter_cons_False by (intros H; apply H; reflexivity).
  f_equal; apply filter_keeps_all, Forall_forall; intros x Hx Heq.
  - apply (Hl1 x.(id)).
    + apply list_elem_of_fmap. exists x. auto.
    + rewrite Heq. apply list_elem_of_here.
  - apply Hl2. rewrite <- Heq. apply list_elem_of_fmap. exists x. auto.
Qed.

(** [removeTask] step by step: the collection is replaced by the filtered
    one first, and the lengths are compared afterwards. *)
Lemma removeTask_run (id' : Z) (w : World) :
  let kept := filter (λ task, task.(id) ≠ id') w.(manager).(tasks) in
  removeTask id' w =
    if decide (length kept = length w.(manager).(tasks))
    then (Throw (not_found id'), with_tasks kept w)
    else (Normal tt, logged [removed_line id'] (with_tasks kept w)).
Proof.
  unfold removeTask. run_body. destruct (decide _); reflexivity.
Qed.

(** C5. In a store whose ids are unique (the data-model invariant, kept by
    every operation: [unique_ids_reachable], [runMenu_unique_ids]),
    [removeTask id'] with the id of a stored task [t] completes; the
    collection was [l1 ++ t :: l2] and is [l1 ++ l2] afterwards: exactly [t]
    is gone and the others keep their order.  When no task has the id, it
    throws 'Task with ID ... not found.' and the world is the one of before
    the call, so size and contents are identical. *)
Theorem removeTask_deletes_or_fails (id' : Z) (w : World) :
  NoDup (id <$> w.(manager).(tasks)) →
  (∀ t, t ∈ w.(manager).(tasks) → t.(id) = id' →
      ∃ l1 l2 w',
        w.(manager).(tasks) = l1 ++ t :: l2
        ∧ removeTask id' w = (Normal tt, w')
        ∧ w'.(manager).(tasks) = l1 ++ l2
        ∧ w'.(manager).(nextId) = w.(manager).(nextId))
  ∧ ((∀ t, t ∈ w.(manager).(tasks) → t.(id) ≠ id') →
      removeTask id' w
      = (Throw (mkError (lit "Task with ID " ++ Number_toString id'
                         ++ lit " not found.")), w)).
Proof.
  intros Hnd. split.
  - intros t Hin <-. apply list_elem_of_split in Hin as (l1 & l2 & Hts).
    exists l1, l2. rewrite removeTask_run. cbn zeta.
    rewrite Hts in Hnd |- *. rewrite filter_out_unique_id by assumption.
    destruct (decide _) as [Hlen | _].
    + rewrite !length_app in Hlen. simpl in Hlen. lia.
    + eexists. split; [reflexivity |]. split; [reflexivity |].
      split; reflexivity.
  - intros Hnone. rewrite removeTask_run. cbn zeta.
    rewrite filter_keeps_all by (apply Forall_forall; exact Hnone).
    rewrite decide_True by reflexivity. rewrite with_tasks_same. reflexivity.
Qed.

Lemma removeTask_deletes_or_fails_witness :
  NoDup (id <$> two_tasks.(manager).(tasks))
  ∧ (∃ l1 l2 w',
       two_tasks.(manager).(tasks)
       = l1 ++ {| id := 1; name := lit "Task A"; description := placeholder;
                  status := Pending |} :: l2
       ∧ removeTask 1 two_tasks = (Normal tt, w')
       ∧ w'.(manager).(tasks) = l1 ++ l2
       ∧ w'.(manager).(nextId) = two_tasks.(manager).(nextId))
  ∧ removeTask 7 two_tasks
    = (Throw (mkError (lit "Task with ID " ++ Number_toString 7
                       ++ lit " not found.")), two_tasks).
Proof.
  assert (Hnd : NoDup (id <$> two_tasks.(manager).(tasks))).
  { apply (bool_decide_unpack _). vm_compute. exact I. }
  split; [exact Hnd |].
  split.
  - apply (proj1 (removeTask_deletes_or_fails 1 two_tasks Hnd)
             {| id := 1; name := lit "Task A"; description := placeholder;
                status := Pending |}); [| reflexivity].
    apply list_elem_of_here.
  - apply (proj2 (removeTask_deletes_or_fails 7 two_tasks Hnd)).
    intros t Ht. vm_compute in Ht.
    apply elem_of_cons in Ht as [-> | Ht]; [discriminate |].
    apply elem_of_cons in Ht as [-> | Ht]; [discriminate |].
    inversion Ht.
Defined.

(** After the removal above only the second task is left. *)
Example removeTask_example :
  (removeTask 1 two_tasks).2.(manager).(tasks)
  = [{| id := 2; name := lit "Task B"; description := lit "desc";
        status := Pending |}].
Proof. reflexivity. Qed.

(** ** [updateTaskStatus] *)

Lemma updateTaskStatus_run (id' : Z) (status' : jsstring) (w : World) :
  updateTaskStatus id' status' w =
    if decide (status' ≠ Pending ∧ status' ≠ Completed)
    then (Throw (invalid_status status'), w)
    else match list_find (λ task, task.(id) = id') w.(manager).(tasks) with
         | None => (Throw (not_found_for_update id'), w)
         | Some (k, taskToUpdate) =>
             (Normal tt,
              logged [updated_line id' status']
                (with_tasks (<[k := set_status status' taskToUpdate]>
                               w.(manager).(tasks)) w))
         end.
Proof.
  unfold updateTaskStatus. destruct (decide _); [reflexivity |].
  run_body. destruct (list_find _ _) as [[k t] |]; reflexivity.
Qed.

(** C6. A status string other than 'Pending' and 'Completed' (compared code
    unit by code unit) makes [updateTaskStatus] throw 'Invalid status: ...',
    the program's validation error, before the collection is looked at: the
    world is the one of before the call, whatever the id, and every task has
    the status it had. *)
Theorem updateTaskStatus_rejects_unknown_status
    (id' : Z) (status' : jsstring) (w : World) :
  status' ≠ lit "Pending" → status' ≠ lit "Completed" →
  ∃ w', updateTaskStatus id' status' w
        = (Throw (mkError (lit "Invalid status: '" ++ status'
                           ++ lit "'. Must be 'Pending' or 'Completed'.")), w')
      ∧ w' = w
      ∧ status <$> w'.(manager).(tasks) = status <$> w.(manager).(tasks).
Proof.
  intros HP HC. exists w. rewrite updateTaskStatus_run.
  rewrite decide_True by (split; assumption). auto.
Qed.

Lemma updateTaskStatus_rejects_unknown_status_witness :
  lit "Done" ≠ lit "Pending" ∧ lit "Done" ≠ lit "Completed"
  ∧ ∃ w', updateTaskStatus 1 (lit "Done") two_tasks
          = (Throw (mkError (lit "Invalid status: '" ++ lit "Done"
                             ++ lit "'. Must be 'Pending' or 'Completed'.")), w')
        ∧ w' = two_tasks
        ∧ status <$> w'.(manager).(tasks) = status <$> two_tasks.(manager).(tasks).
Proof.
  split; [discriminate |]. split; [discriminate |].
  apply (updateTaskStatus_rejects_unknown_status 1 (lit "Done") two_tasks);
    discriminate.
Defined.

(** With unique ids, [find] returns the task that has the id. *)
Lemma list_find_unique_id (ts : list Task) (k : nat) (t : Task) :
  NoDup (id <$> ts) → ts !! k = Some t →
  list_find (λ task, task.(id) = t.(id)) ts = Some (k, t).
Proof.
  intros Hnd Hk. apply list_find_Some. split; [exact Hk |].
  split; [reflexivity |].
  intros j y Hj Hlt Heq.
  assert (j = k); [| lia].
  apply (NoDup_lookup (id <$> ts) j k y.(id)); [exact Hnd | |].
  - rewrite list_lookup_fmap, Hj. reflexivity.
  - rewrite list_lookup_fmap, Hk, Heq. reflexivity.
Qed.

(** C7. In a store whose ids are unique, [updateTaskStatus] with the id of
    the task at position [k] and one of the two statuses completes; the task
    at position [k] then has the given status and the id, name and
    description it had; every other position holds the task it held; the
    size of the collection and the counter are what they were. *)
Theorem updateTaskStatus_changes_only_status
    (id' : Z) (status' : jsstring) (w : World) (k : nat) (t : Task) :
  NoDup (id <$> w.(manager).(tasks)) →
  status' = lit "Pending" ∨ status' = lit "Completed" →
  w.(manager).(tasks) !! k = Some t → t.(id) = id' →
  ∃ w' t',
    updateTaskStatus id' status' w = (Normal tt, w')
    ∧ w'.(manager).(tasks) !! k = Some t'
    ∧ t'.(status) = status'
    ∧ t'.(id) = t.(id) ∧ t'.(name) = t.(name)
    ∧ t'.(description) = t.(description)
    ∧ (∀ j : nat, j ≠ k →
         w'.(manager).(tasks) !! j = w.(manager).(tasks) !! j)
    ∧ length w'.(manager).(tasks) = length w.(manager).(tasks)
    ∧ w'.(manager).(nextId) = w.(manager).(nextId).
Proof.
  intros Hnd Hst Hk <-. rewrite updateTaskStatus_run.
  rewrite decide_False by (intros [HP HC]; destruct Hst; contradiction).
  rewrite (list_find_unique_id _ k t) by assumption.
  eexists _, (set_status status' t). split; [reflexivity |]. simpl.
  split.
  { apply list_lookup_insert_eq. eapply lookup_lt_Some. exact Hk. }
  repeat split; try reflexivity.
  - intros j Hj. apply list_lookup_insert_ne. congruence.
  - apply length_insert.
Qed.

Lemma updateTaskStatus_changes_only_status_witness :
  ∃ w' t',
    updateTaskStatus 2 (lit "Completed") two_tasks = (Normal tt, w')
    ∧ w'.(manager).(tasks) !! 1%nat = Some t'
    ∧ t'.(status) = lit "Completed"
    ∧ t'.(id) = 2 ∧ t'.(name) = lit "Task B"
    ∧ t'.(description) = lit "desc"
    ∧ (∀ j : nat, j ≠ 1%nat →
         w'.(manager).(tasks) !! j = two_tasks.(manager).(tasks) !! j)
    ∧ length w'.(manager).(tasks) = length two_tasks.(manager).(tasks)
    ∧ w'.(manager).(nextId) = two_tasks.(manager).(nextId).
Proof.
  apply (updateTaskStatus_changes_only_status 2 (lit "Completed") two_tasks 1
           {| id := 2; name := lit "Task B"; description := lit "desc";
              status := Pending |}).
  - apply (bool_decide_unpack _). vm_compute. exact I.
  - right. reflexivity.
  - reflexivity.
  - reflexivity.
Defined.

(** ** [listTasks] and [clearTasks] *)

Lemma logged_nil (w : World) : logged [] w = w.
Proof. destruct w. unfold logged. simpl. rewrite app_nil_r. reflexivity. Qed.

Lemma logged_logged (l1 l2 : list jsstring) (w : World) :
  logged l2 (logged l1 w) = logged (l1 ++ l2) w.
Proof. unfold logged. simpl. rewrite app_assoc. reflexivity. Qed.

(** A loop whose body prints one line per element prints the lines in the
    order of the list. *)
Lemma for_of_console_log {A} (l : list A) (line : A → jsstring) (w : World) :
  for_of l (λ x, console_log (line x)) w = (Normal tt, logged (line <$> l) w).
Proof.
  revert w. induction l as [|x l IH]; intros w; simpl.
  - rewrite logged_nil. reflexivity.
  - run_body. rewrite IH, logged_logged. reflexivity.
Qed.

(** [listTasks] only prints: a header, then either the notice of the empty
    list or one line per task, in the order of the collection, and a rule. *)
Lemma listTasks_run (w : World) :
  listTasks w =
    (Normal tt,
     logged ((nl ++ lit "--- Current Tasks ---")
             :: match w.(manager).(tasks) with
                | [] => [lit "Your task list is empty!"]
                | ts => (task_line <$> ts) ++ [lit "---------------------"]
                end) w).
Proof.
  unfold listTasks. run_body.
  destruct w.(manager).(tasks) as [|t ts] eqn:Hts; simpl.
  - rewrite logged_logged. reflexivity.
  - fold (task_line t). run_body.
    rewrite (for_of_console_log ts task_line).
    rewrite !logged_logged. reflexivity.
Qed.

Lemma clearTasks_run (w : World) :
  clearTasks w =
    (Normal tt,
     logged [nl ++ icon_fire ++ lit " All tasks cleared."] (with_tasks [] w)).
Proof. reflexivity. Qed.

(** C8. [clearTasks] always completes; afterwards the collection is empty and
    the counter is the one of before.  Listing the cleared store prints the
    header and 'Your task list is empty!', and no task.  Clearing the cleared
    store completes as well and leaves the manager as one clearing left it. *)
Theorem clearTasks_empties_keeps_counter (w : World) :
  ∃ w1 w2,
    clearTasks w = (Normal tt, w1)
    ∧ w1.(manager).(tasks) = []
    ∧ w1.(manager).(nextId) = w.(manager).(nextId)
    ∧ listTasks w1
      = (Normal tt,
         logged [nl ++ lit "--- Current Tasks ---";
                 lit "Your task list is empty!"] w1)
    ∧ clearTasks w1 = (Normal tt, w2)
    ∧ w2.(manager) = w1.(manager).
Proof.
  eexists _, _. split; [apply clearTasks_run |].
  split; [reflexivity |]. split; [reflexivity |].
  split; [rewrite listTasks_run; reflexivity |].
  split; [apply clearTasks_run | reflexivity].
Qed.

(** ** Properties kept along a computation *)

Section Preserves.
Context (P : World → Prop).

Lemma preserves_ret {A} (a : A) : preserves P (mret a).
Proof. intros w Hw. exact Hw. Qed.

Lemma preserves_throw {A} (e : Error) : preserves P (throw e : M A).
Proof. intros w Hw. exact Hw. Qed.

Lemma preserves_bind {A B} (m : M A) (f : A → M B) :
  preserves P m → (∀ a, preserves P (f a)) → preserves P (m ≫= f).
Proof.
  intros Hm Hf w Hw. unfold mbind, M_bind.
  specialize (Hm w Hw). destruct (m w) as [[a | e] w1]; simpl in *.
  - apply Hf. exact Hm.
  - exact Hm.
Qed.

Lemma preserves_try_catch {A} (body : M A) (handler : Error → M A) :
  preserves P body → (∀ e, preserves P (handler e)) →
  preserves P (try_catch body handler).
Proof.
  intros Hb Hh w Hw. unfold try_catch.
  specialize (Hb w Hw). destruct (body w) as [[a | e] w1]; simpl in *.
  - exact Hb.
  - apply Hh. exact Hb.
Qed.

Lemma preserves_for_of {A} (l : list A) (body : A → M unit) :
  (∀ x, preserves P (body x)) → preserves P (for_of l body).
Proof.
  intros Hbody. induction l as [|x l IH]; simpl.
  - apply preserves_ret.
  - apply preserves_bind; [apply Hbody | intros _; exact IH].
Qed.

Lemma preserves_get_tasks : preserves P get_tasks.
Proof. intros w Hw. exact Hw. Qed.

Lemma preserves_get_running : preserves P get_running.
Proof. intros w Hw. exact Hw. Qed.
End Preserves.

(** ** The invariant of the store *)

Lemma store_ok_new : store_ok new_TaskManager.
Proof. split; constructor. Qed.

Lemma store_ok_push (ts : list Task) (n : Z) (t : Task) :
  store_ok {| tasks := ts; nextId := n |} → t.(id) = n →
  store_ok {| tasks := ts ++ [t]; nextId := n + 1 |}.
Proof.
  unfold store_ok. simpl. intros [Hnd Hlt] Hid.
  rewrite fmap_app. simpl. split.
  - apply NoDup_app. split; [exact Hnd |]. split; [| apply NoDup_singleton].
    intros i Hi Hin. apply list_elem_of_singleton in Hin.
    rewrite Forall_forall in Hlt. specialize (Hlt i Hi). lia.
  - apply Forall_app. split.
    + eapply Forall_impl; [exact Hlt |]. simpl. intros. lia.
    + constructor; [lia | constructor].
Qed.

Lemma elem_of_ids_filter (P : Task → Prop) `{!∀ x, Decision (P x)}
    (ts : list Task) (i : Z) :
  i ∈ id <$> filter P ts → i ∈ id <$> ts.
Proof.
  intros (t & -> & Ht)%list_elem_of_fmap.
  apply list_elem_of_filter in Ht as [_ Ht].
  apply list_elem_of_fmap. exists t. auto.
Qed.

Lemma store_ok_filter (P : Task → Prop) `{!∀ x, Decision (P x)}
    (ts : list Task) (n : Z) :
  store_ok {| tasks := ts; nextId := n |} →
  store_ok {| tasks := filter P ts; nextId := n |}.
Proof.
  unfold store_ok. simpl. intros [Hnd Hlt]. split.
  - clear Hlt. induction ts as [|t ts IH]; [constructor |].
    rewrite fmap_cons in Hnd. apply NoDup_cons in Hnd as [Hnotin Hnd].
    rewrite filter_cons. destruct (decide (P t)); [| apply IH; assumption].
    rewrite fmap_cons. apply NoDup_cons. split.
    + intros Hin. apply Hnotin. eapply elem_of_ids_filter. exact Hin.
    + apply IH. assumption.
  - rewrite Forall_forall in Hlt |- *. intros i Hi.
    apply Hlt. eapply elem_of_ids_filter. exact Hi.
Qed.

(** Assigning the status of a stored task leaves the list of ids alone. *)
Lemma ids_set_status (ts : list Task) (k : nat) (t : Task) (s : jsstring) :
  ts !! k = Some t → id <$> <[k := set_status s t]> ts = id <$> ts.
Proof.
  intros Hk. rewrite list_fmap_insert. simpl.
  apply list_insert_id. rewrite list_lookup_fmap, Hk. reflexivity.
Qed.

Lemma addTask_ok (name' description' : jsstring) :
  preserves world_ok (addTask name' description').
Proof.
  intros w Hw. destruct (decide (trim name' = [])) as [He | Hne].
  - rewrite addTask_throw by assumption. exact Hw.
  - rewrite addTask_run by assumption. unfold world_ok in *. simpl.
    apply store_ok_push; [| reflexivity].
    destruct w.(manager). exact Hw.
Qed.

Lemma removeTask_ok (id' : Z) : preserves world_ok (removeTask id').
Proof.
  intros w Hw. rewrite removeTask_run. cbn zeta. unfold world_ok in *.
  destruct (decide _); simpl; apply store_ok_filter;
    destruct w.(manager); exact Hw.
Qed.

Lemma listTasks_ok : preserves world_ok listTasks.
Proof. intros w Hw. rewrite listTasks_run. exact Hw. Qed.

Lemma clearTasks_ok : preserves world_ok clearTasks.
Proof.
  intros w [_ _]. rewrite clearTasks_run. split; constructor.
Qed.

Lemma updateTaskStatus_ok (id' : Z) (status' : jsstring) :
  preserves world_ok (updateTaskStatus id' status').
Proof.
  intros w Hw. rewrite updateTaskStatus_run.
  destruct (decide _); [exact Hw |].
  destruct (list_find _ _) as [[k t] |] eqn:Hfind; [| exact Hw].
  apply list_find_Some in Hfind as (Hk & _ & _).
  unfold world_ok, store_ok in *. simpl.
  rewrite ids_set_status by assumption. exact Hw.
Qed.

(** ** Sequences of calls *)

Lemma perform_ok (c : call) : preserves world_ok (perform c).
Proof.
  destruct c; simpl;
    auto using addTask_ok, removeTask_ok, listTasks_ok, updateTaskStatus_ok,
      clearTasks_ok.
Qed.

Lemma perform_all_ok (cs : list call) (w : World) :
  world_ok w → world_ok (perform_all cs w).
Proof.
  revert w. induction cs as [|c cs IH]; intros w Hw; simpl; [exact Hw |].
  apply IH, perform_ok, Hw.
Qed.

(** Whatever calls were made since program start, the ids in the store are
    unique. *)
Lemma unique_ids_reachable (cs : list call) (answers : nat → option jsstring) :
  NoDup (id <$> (perform_all cs (initial_world answers)).(manager).(tasks)).
Proof.
  apply (perform_all_ok cs (initial_world answers)). apply store_ok_new.
Qed.

(** What one call does to the counter, and the id it hands out. *)
Lemma perform_counter (c : call) (w : World) :
  (perform c w).2.(manager).(nextId)
    = w.(manager).(nextId) + (if successful_add c then 1 else 0)
  ∧ assigned_by c w = if successful_add c then [w.(manager).(nextId)] else [].
Proof.
  destruct c as [name' description' | id' | | id' status' |];
    unfold assigned_by; simpl.
  - destruct (decide (trim name' = [])) as [He | Hne].
    + rewrite addTask_throw by assumption.
      rewrite bool_decide_false by (intros H; apply H, He).
      simpl. split; [lia | reflexivity].
    + rewrite addTask_run by assumption.
      rewrite bool_decide_true by assumption.
      simpl. rewrite last_snoc. split; reflexivity.
  - rewrite removeTask_run. cbn zeta.
    destruct (decide _); simpl; split; solve [lia | reflexivity].
  - rewrite listTasks_run. simpl. split; [lia | reflexivity].
  - rewrite updateTaskStatus_run.
    destruct (decide _); [simpl; split; solve [lia | reflexivity] |].
    destruct (list_find _ _) as [[k t] |]; simpl; split; solve [lia | reflexivity].
  - split; [simpl; lia | reflexivity].
Qed.

Lemma assigned_ids_from (cs : list call) (w : World) :
  assigned_ids cs w
  = seqZ w.(manager).(nextId) (Z.of_nat (count_successful_adds cs)).
Proof.
  revert w. induction cs as [|c cs IH]; intros w; simpl.
  - reflexivity.
  - destruct (perform_counter c w) as [Hnext Hgiven].
    rewrite Hgiven, IH, Hnext. destruct (successful_add c).
    + rewrite (seqZ_cons w.(manager).(nextId)) by lia. simpl.
      do 2 f_equal; lia.
    + simpl. f_equal. lia.
Qed.

(** C1. Along every sequence of calls made from program start (additions,
    with blank or proper names, removals, listings, status updates and
    clearings, in any order), the ids handed out by the additions that
    complete are 1, 2, 3, ... in this order, one per such addition; so no id
    is handed out twice, whatever was removed or cleared in between. *)
Theorem assigned_ids_count_up (cs : list call) (answers : nat → option jsstring) :
  assigned_ids cs (initial_world answers)
  = seqZ 1 (Z.of_nat (count_successful_adds cs))
  ∧ NoDup (assigned_ids cs (initial_world answers)).
Proof.
  rewrite assigned_ids_from. simpl. split; [reflexivity | apply NoDup_seqZ].
Qed.

Example assigned_ids_example :
  assigned_ids
    [CallAdd (lit "a") []; CallRemove 1; CallAdd (lit " ") []; CallAdd (lit "b") [];
     CallClear; CallAdd (lit "c") (lit "d")]
    (initial_world (script []))
  = [1; 2; 3].
Proof. reflexivity. Qed.

(** ** The menu loop *)

Lemma displayMenu_run (w : World) :
  displayMenu w = (Normal tt, logged menu_lines w).
Proof.
  unfold displayMenu. run_body. rewrite !logged_logged. reflexivity.
Qed.

(** The literals of the [case] labels are pairwise different. *)
Ltac label_neq := unfold lit; simpl; discriminate.

Lemma menu_switch_3 (w : World) :
  menu_switch (lit "3") w =
    match parseInt (trim (or_empty (w.(stdin) w.(asked)))) with
    | None => (Throw invalid_id, prompted w)
    | Some n => removeTask n (prompted w)
    end.
Proof.
  unfold menu_switch.
  rewrite !decide_False by label_neq. rewrite decide_True by reflexivity.
  run_body. destruct (parseInt _); reflexivity.
Qed.

Lemma menu_switch_4 (w : World) :
  menu_switch (lit "4") w =
    match parseInt (trim (or_empty (w.(stdin) w.(asked)))) with
    | None => (Throw invalid_id, prompted (listTasks w).2)
    | Some n =>
        updateTaskStatus n (trim (or_empty (w.(stdin) (S w.(asked)))))
          (prompted (prompted (listTasks w).2))
    end.
Proof.
  unfold menu_switch.
  rewrite !decide_False by label_neq. rewrite decide_True by reflexivity.
  unfold mbind at 1, M_bind at 1. rewrite listTasks_run.
  run_body. destruct (parseInt _); reflexivity.
Qed.

Lemma menu_switch_6 (w : World) :
  menu_switch (lit "6") w =
    (Normal tt,
     with_running false
       (logged [nl ++ icon_wave ++ lit " Exiting Task Manager. Goodbye!"] w)).
Proof.
  unfold menu_switch.
  rewrite !decide_False by label_neq. rewrite decide_True by reflexivity.
  reflexivity.
Qed.

(** Neither method throws the error of a malformed id. *)
Lemma removeTask_not_invalid_id (n : Z) (w w' : World) :
  removeTask n w ≠ (Throw invalid_id, w').
Proof.
  rewrite removeTask_run. cbn zeta. destruct (decide _); [| discriminate].
  unfold not_found, invalid_id, lit. simpl. discriminate.
Qed.

Lemma updateTaskStatus_not_invalid_id (n : Z) (s : jsstring) (w w' : World) :
  updateTaskStatus n s w ≠ (Throw invalid_id, w').
Proof.
  rewrite updateTaskStatus_run. destruct (decide _).
  - unfold invalid_status, invalid_id, lit. simpl. discriminate.
  - destruct (list_find _ _) as [[k t] |]; [discriminate |].
    unfold not_found_for_update, invalid_id, lit. simpl. discriminate.
Qed.

(** The two branches that read an id, in terms of [parseInt]: the branch
    throws 'Invalid ID entered.' exactly when [parseInt] of the trimmed
    answer is [NaN], and calls the method with the number otherwise; under
    the [catch] the failure is printed and the iteration completes. *)
Lemma id_branches_follow_parseInt (w : World) :
  let idStr := or_empty (w.(stdin) w.(asked)) in
  let statusStr := or_empty (w.(stdin) (S w.(asked))) in
  (∀ n, parseInt (trim idStr) = Some n →
        menu_switch (lit "3") w = removeTask n (prompted w))
  ∧ (parseInt (trim idStr) = None ↔
       ∃ w', menu_switch (lit "3") w
             = (Throw (mkError (lit "Invalid ID entered.")), w'))
  ∧ (∀ n, parseInt (trim idStr) = Some n →
        menu_switch (lit "4") w
        = updateTaskStatus n (trim statusStr)
            (prompted (prompted (listTasks w).2)))
  ∧ (parseInt (trim idStr) = None ↔
       ∃ w', menu_switch (lit "4") w
             = (Throw (mkError (lit "Invalid ID entered.")), w'))
  ∧ (parseInt (trim idStr) = None →
       try_catch (menu_switch (lit "3")) catch_block w
       = (Normal tt,
          logged [nl ++ icon_siren ++ lit " Operation Failed: "
                  ++ lit "Invalid ID entered."] (prompted w))
       ∧ try_catch (menu_switch (lit "4")) catch_block w
         = (Normal tt,
            logged [nl ++ icon_siren ++ lit " Operation Failed: "
                    ++ lit "Invalid ID entered."] (prompted (listTasks w).2))).
Proof.
  cbn zeta. rewrite menu_switch_3, menu_switch_4.
  unfold try_catch. rewrite menu_switch_3, menu_switch_4.
  destruct (parseInt _) as [n |]; repeat split;
    try discriminate; try (intros ? [= <-]; reflexivity); eauto.
  - intros [w' Hw']. exfalso. exact (removeTask_not_invalid_id _ _ _ Hw').
  - intros [w' Hw']. exfalso. exact (updateTaskStatus_not_invalid_id _ _ _ _ Hw').
Qed.

Example id_branches_example :
  menu_switch (lit "3") (initial_world (script [lit " 12abc "]))
  = removeTask 12 (prompted (initial_world (script [lit " 12abc "]))).
Proof.
  apply (proj1 (id_branches_follow_parseInt
                  (initial_world (script [lit " 12abc "]))) 12).
  reflexivity.
Qed.

(** Once a digit has been read, [parseDigits] yields a number. *)
Lemma parseDigits_seen (R : Z) (s : jsstring) (acc : Z) :
  is_Some (parseDigits R s true acc).
Proof.
  revert acc. induction s as [|c r IH]; intros acc; simpl; [eauto |].
  destruct (digitValue R c); [apply IH | eauto].
Qed.

(** [parseDigits] fails exactly when the text does not begin with a digit. *)
Lemma parseDigits_None_iff (R : Z) (s : jsstring) :
  parseDigits R s false 0 = None ↔ (head s ≫= digitValue R) = None.
Proof.
  destruct s as [|c r]; simpl; [tauto |].
  destruct (digitValue R c) as [d |]; [| tauto].
  destruct (parseDigits_seen R r (0 * R + d)) as [v ->]. split; discriminate.
Qed.

(** ** What the branches of the menu keep *)

Section MenuPreserves.
Context (P : World → Prop).
Hypothesis P_logged : ∀ l w, P w → P (logged l w).
Hypothesis P_prompted : ∀ w, P w → P (prompted w).
Hypothesis P_addTask : ∀ n d, preserves P (addTask n d).
Hypothesis P_removeTask : ∀ i, preserves P (removeTask i).
Hypothesis P_listTasks : preserves P listTasks.
Hypothesis P_updateTaskStatus : ∀ i s, preserves P (updateTaskStatus i s).
Hypothesis P_clearTasks : preserves P clearTasks.

Lemma preserves_console_log (line : jsstring) : preserves P (console_log line).
Proof. intros w Hw. apply P_logged, Hw. Qed.

Lemma preserves_promptSync (ask : jsstring) : preserves P (promptSync ask).
Proof. intros w Hw. apply P_prompted, Hw. Qed.

(** One syntax-directed step through the body of a branch. *)
Ltac preserves_step :=
  lazymatch goal with
  | |- preserves _ (addTask _ _) => apply P_addTask
  | |- preserves _ (removeTask _) => apply P_removeTask
  | |- preserves _ listTasks => apply P_listTasks
  | |- preserves _ (updateTaskStatus _ _) => apply P_updateTaskStatus
  | |- preserves _ clearTasks => apply P_clearTasks
  | |- preserves _ (promptSync _) => apply preserves_promptSync
  | |- preserves _ (console_log _) => apply preserves_console_log
  | |- preserves _ (throw _) => apply preserves_throw
  | |- preserves _ (mbind _ _) => apply preserves_bind; [| intros ?]
  | |- preserves _ (match ?x with _ => _ end) => destruct x
  end.

(** Every branch but the one of label '6' keeps [P]. *)
Lemma preserves_menu_switch (selected : jsstring) :
  selected ≠ lit "6" → preserves P (menu_switch selected).
Proof.
  intros Hsel. unfold menu_switch.
  repeat (destruct (decide _) as [? | ?]; [repeat preserves_step |]).
  - congruence.
  - apply preserves_console_log.
Qed.

Lemma preserves_catch_block (e : Error) : preserves P (catch_block e).
Proof. apply preserves_console_log. Qed.
End MenuPreserves.



Lemma menu_switch_ok (selected : jsstring) :
  preserves world_ok (menu_switch selected).
Proof.
  destruct (decide (selected = lit "6")) as [-> | Hsel].
  - intros w Hw. rewrite menu_switch_6. exact Hw.
  - apply preserves_menu_switch;
      auto using addTask_ok, removeTask_ok, listTasks_ok, updateTaskStatus_ok,
        clearTasks_ok.
Qed.

(** ** One iteration, and the loop *)

Lemma cycle_run (w : World) :
  cycle w =
    try_catch (try_block (w.(stdin) w.(asked))) catch_block
      (prompted (logged menu_lines w)).
Proof.
  unfold cycle. unfold mbind at 1, M_bind at 1.
  rewrite displayMenu_run. reflexivity.
Qed.








(** The invariant of the store holds all along the loop. *)
Lemma cycle_ok : preserves world_ok cycle.
Proof.
  intros w Hw. rewrite cycle_run.
  apply preserves_try_catch; [| intros e w1 Hw1; exact Hw1 | exact Hw].
  intros w1 Hw1. unfold try_block. destruct (negb _); [exact Hw1 |].
  revert w1 Hw1. apply preserves_bind; [apply menu_switch_ok |].
  intros _. apply preserves_bind; [apply preserves_get_running |].
  intros [|] w1 Hw1; exact Hw1.
Qed.

Lemma while_running_ok (fuel : nat) : preserves world_ok (while_running fuel).
Proof.
  induction fuel as [|fuel IH]; simpl; [apply preserves_ret |].
  apply preserves_bind; [apply preserves_get_running |].
  intros [|]; [| apply preserves_ret].
  apply preserves_bind; [apply cycle_ok | intros _; exact IH].
Qed.

(** However long the program runs and whatever is typed, the ids in the
    store are unique. *)
Lemma runMenu_unique_ids (fuel : nat) (answers : nat → option jsstring) :
  NoDup (id <$> (runMenu fuel (initial_world answers)).2.(manager).(tasks)).
Proof.
  assert (H : preserves world_ok (runMenu fuel)).
  { apply preserves_bind; [intros w Hw; exact Hw |].
    intros _. apply while_running_ok. }
  apply (H (initial_world answers)). apply store_ok_new.
Qed.

(** ** A session *)

Example calls_example :
  (perform_all
     [CallAdd (lit "Task A") []; CallAdd (lit "Task B") (lit "desc");
      CallRemove 1; CallUpdateStatus 2 (lit "Completed")]
     (initial_world (script []))).(manager)
  = {| tasks := [{| id := 2; name := lit "Task B"; description := lit "desc";
                    status := Completed |}];
       nextId := 3 |}.
Proof. reflexivity. Qed.

(** Two additions, a removal with a malformed id, a removal of an unknown id,
    a status update with an unknown status, then exit: every error is
    reported, the loop ends on '6' after six iterations. *)
Example session_example :
  let w := (runMenu 10
              (initial_world
                 (script [lit "1"; lit "Task A"; lit "";
                          lit "1"; lit " Task B "; lit "desc";
                          lit "3"; lit "x";
                          lit "3"; lit "9";
                          lit "4"; lit "2"; lit "Done";
                          lit "6"]))).2 in
  w.(manager)
  = {| tasks := [{| id := 1; name := lit "Task A"; description := placeholder;
                    status := Pending |};
                 {| id := 2; name := lit "Task B"; description := lit "desc";
                    status := Pending |}];
       nextId := 3 |}
  ∧ w.(running) = false
  ∧ w.(asked) = 14%nat
  ∧ filter (λ line, take 5 line = nl ++ icon_siren) w.(console)
    = [nl ++ icon_siren ++ lit " Operation Failed: Invalid ID entered.";
       nl ++ icon_siren ++ lit " Operation Failed: Task with ID 9 not found.";
       nl ++ icon_siren ++ lit " Operation Failed: Invalid status: 'Done'. Must be 'Pending' or 'Completed'."].
Proof. vm_compute. repeat apply conj; reflexivity. Qed.

(** * Further properties of the program *)

(** ** [trim] *)

Lemma trimStart_split (s : jsstring) :
  ∃ l, s = l ++ trimStart s ∧ Forall (λ c, isWhiteSpace c = true) l.
Proof.
  induction s as [|c r (l & Hr & Hl)]; simpl.
  - exists []. split; [reflexivity | constructor].
  - destruct (isWhiteSpace c) eqn:Hc.
    + exists (c :: l). split; [simpl; f_equal; exact Hr |].
      constructor; assumption.
    + exists []. split; [reflexivity | constructor].
Qed.

Lemma head_trimStart (s : jsstring) :
  isWhiteSpace <$> head (trimStart s) ≠ Some true.
Proof.
  destruct (trimStart s) as [|c r] eqn:Hs; simpl; [discriminate |].
  apply trimStart_head in Hs. rewrite Hs. discriminate.
Qed.

(** A string that does not begin with white space is left alone. *)
Lemma trimStart_fixed (s : jsstring) :
  isWhiteSpace <$> head s ≠ Some true → trimStart s = s.
Proof.
  destruct s as [|c r]; simpl; [reflexivity |].
  destruct (isWhiteSpace c); [intros H; exfalso; apply H |]; reflexivity.
Qed.

Lemma trimEnd_split (s : jsstring) :
  ∃ r, s = trimEnd s ++ r ∧ Forall (λ c, isWhiteSpace c = true) r.
Proof.
  destruct (trimStart_split (reverse s)) as (l & Hs & Hl).
  exists (reverse l). split; [| apply Forall_reverse; exact Hl].
  unfold trimEnd. rewrite <- reverse_app, <- Hs, reverse_involutive.
  reflexivity.
Qed.

Lemma last_trimEnd (s : jsstring) :
  isWhiteSpace <$> last (trimEnd s) ≠ Some true.
Proof. unfold trimEnd. rewrite last_reverse. apply head_trimStart. Qed.

Lemma trimEnd_fixed (s : jsstring) :
  isWhiteSpace <$> last s ≠ Some true → trimEnd s = s.
Proof.
  intros H. unfold trimEnd. rewrite trimStart_fixed.
  - apply reverse_involutive.
  - rewrite head_reverse. exact H.
Qed.

Lemma head_trim (s : jsstring) : isWhiteSpace <$> head (trim s) ≠ Some true.
Proof.
  unfold trim. destruct (trimEnd_split (trimStart s)) as (r & Hs & _).
  pose proof (head_trimStart s) as Hh. rewrite Hs in Hh.
  destruct (trimEnd (trimStart s)) as [|c x]; [discriminate | exact Hh].
Qed.

Lemma last_trim (s : jsstring) : isWhiteSpace <$> last (trim s) ≠ Some true.
Proof. apply last_trimEnd. Qed.

(** X1. [trim] removes white space at both ends and nothing else: the
    string is a run of white space, its trimmed form and a run of white
    space, and the trimmed form neither begins nor ends with white space. *)
Theorem trim_strips_exactly_white_space (s : jsstring) :
  ∃ l r,
    s = l ++ trim s ++ r
    ∧ Forall (λ c, isWhiteSpace c = true) l
    ∧ Forall (λ c, isWhiteSpace c = true) r
    ∧ isWhiteSpace <$> head (trim s) ≠ Some true
    ∧ isWhiteSpace <$> last (trim s) ≠ Some true.
Proof.
  destruct (trimStart_split s) as (l & Hs & Hl).
  destruct (trimEnd_split (trimStart s)) as (r & Hu & Hr).
  exists l, r. split.
  - rewrite Hs at 1. f_equal. exact Hu.
  - auto using head_trim, last_trim.
Qed.

Lemma trim_fixed (s : jsstring) :
  isWhiteSpace <$> head s ≠ Some true →
  isWhiteSpace <$> last s ≠ Some true →
  trim s = s.
Proof.
  intros Hh Hl. unfold trim. rewrite (trimStart_fixed s Hh).
  apply trimEnd_fixed, Hl.
Qed.

Lemma trim_trim (s : jsstring) : trim (trim s) = trim s.
Proof. apply trim_fixed; [apply head_trim | apply last_trim]. Qed.

(** X2. Trimming twice is trimming once: a stored name, which is a trimmed
    string, is its own trimmed form. *)
Theorem trim_idempotent (s : jsstring) : trim (trim s) = trim s.
Proof. apply trim_trim. Qed.

(** ** [parseInt] and the printing of numbers *)

Lemma lit_String (c : ascii) (s : string) :
  lit (String c s) = N_of_ascii c :: lit s.
Proof. reflexivity. Qed.

Lemma uint_value_acc (d : Decimal.uint) (p : positive) :
  uint_value d (Z.pos p) = Z.pos (Pos.of_uint_acc d p).
Proof.
  revert p. induction d; intros p; simpl; [reflexivity | ..];
    rewrite <- IHd; f_equal; lia.
Qed.

Lemma uint_value_of_uint (d : Decimal.uint) :
  uint_value d 0 = Z.of_uint d.
Proof.
  unfold Z.of_uint. induction d; simpl; [reflexivity | exact IHd | ..];
    apply uint_value_acc.
Qed.

(** Reading the digits the program prints, once a digit has been read. *)
Lemma parseDigits_printed (d : Decimal.uint) (acc : Z) :
  parseDigits 10 (lit (NilEmpty.string_of_uint d)) true acc
  = Some (uint_value d acc).
Proof.
  revert acc. induction d; intros acc; simpl NilEmpty.string_of_uint;
    [reflexivity | ..]; rewrite lit_String; simpl; apply IHd.
Qed.

Lemma printed_digits (d : Decimal.uint) :
  Forall (λ c, isDecimalDigit c = true) (lit (NilEmpty.string_of_uint d)).
Proof.
  induction d; simpl NilEmpty.string_of_uint; [constructor | ..];
    rewrite lit_String; constructor; solve [reflexivity | exact IHd].
Qed.

Lemma parseDigits_printed_first (d : Decimal.uint) :
  d ≠ Decimal.Nil →
  parseDigits 10 (lit (NilEmpty.string_of_uint d)) false 0
  = Some (uint_value d 0).
Proof.
  destruct d; intros Hd; [contradiction | ..];
    simpl NilEmpty.string_of_uint; rewrite lit_String; simpl;
    apply parseDigits_printed.
Qed.

Lemma decimal_digit_facts (c : N) :
  isDecimalDigit c = true →
  isWhiteSpace c = false ∧ (c =? 0x2D)%N = false ∧ (c =? 0x2B)%N = false
  ∧ (c =? 0x78)%N = false ∧ (c =? 0x58)%N = false.
Proof.
  unfold isDecimalDigit, isWhiteSpace. intros [Hlo Hhi]%andb_true_iff.
  apply N.leb_le in Hlo, Hhi.
  repeat split;
    repeat (apply orb_false_iff; split);
    try (apply N.eqb_neq; lia);
    apply andb_false_iff; left; apply N.leb_gt; lia.
Qed.

(** On a string of decimal digits [parseInt] reads the digits, and after a
    minus sign their opposite. *)
Lemma parseInt_digits (s : jsstring) :
  Forall (λ c, isDecimalDigit c = true) s →
  parseInt s = (Z.mul 1 <$> parseDigits 10 s false 0)
  ∧ parseInt (0x2D%N :: s) = (Z.mul (-1) <$> parseDigits 10 s false 0).
Proof.
  intros Hs.
  assert (Hhex : stripHexPrefix s = None).
  { destruct s as [|c0 [|c1 r]]; try reflexivity. simpl.
    inversion Hs as [|? ? _ Hr]. inversion Hr as [|? ? Hc1 _].
    destruct (decimal_digit_facts _ Hc1) as (_ & _ & _ & -> & ->).
    rewrite andb_false_r. reflexivity. }
  unfold parseInt. split.
  - destruct s as [|c r]; [reflexivity |].
    inversion Hs as [|? ? Hc _].
    destruct (decimal_digit_facts _ Hc) as (Hws & Hm & Hp & _).
    simpl trimStart. rewrite Hws, Hm, Hp, Hhex.
    destruct (parseDigits _ _ _ _); reflexivity.
  - simpl trimStart. change (isWhiteSpace 45) with false. cbv iota.
    change (45 =? 45)%N with true. cbv iota. rewrite Hhex.
    destruct (parseDigits _ _ _ _); reflexivity.
Qed.

(** Reading back the printed form of a safe integer. *)
Lemma parseInt_printed (n : Z) :
  isSafeInteger n = true → parseInt (Number_toString n) = Some n.
Proof.
  intros _.
  unfold Number_toString. rewrite <- (DecimalZ.of_to n) at 2.
  destruct (Z.to_int n) as [d | d] eqn:Hn.
  - assert (Hd : d ≠ Decimal.Nil).
    { destruct n; simpl in Hn; try discriminate; injection Hn as <-;
        [discriminate | apply DecimalPos.Unsigned.to_uint_nonnil]. }
    simpl. replace (NilZero.string_of_uint d) with (NilEmpty.string_of_uint d)
      by (destruct d; [contradiction | reflexivity..]).
    rewrite (proj1 (parseInt_digits _ (printed_digits d))).
    rewrite parseDigits_printed_first by assumption. simpl.
    rewrite uint_value_of_uint. f_equal; try (destruct (Z.of_uint d); reflexivity).
  - assert (Hd : d ≠ Decimal.Nil).
    { destruct n; simpl in Hn; try discriminate. injection Hn as <-.
      apply DecimalPos.Unsigned.to_uint_nonnil. }
    simpl NilZero.string_of_int.
    replace (NilZero.string_of_uint d) with (NilEmpty.string_of_uint d)
      by (destruct d; [contradiction | reflexivity..]).
    rewrite lit_String. change (N_of_ascii "-") with 45%N.
    rewrite (proj2 (parseInt_digits _ (printed_digits d))).
    rewrite parseDigits_printed_first by assumption. simpl.
    rewrite uint_value_of_uint. f_equal; try (destruct (Z.of_uint d); reflexivity).
Qed.

(** X3. An id printed in a message or in the listing reads back as itself:
    for a safe integer [n] (below 2^53 in magnitude, where a JavaScript
    number holds the integer exactly and prints it in plain decimal),
    [parseInt] of the printed form of [n] is [n]. *)
Theorem parseInt_Number_toString (n : Z) :
  isSafeInteger n = true →
  parseInt (Number_toString n) = Some n.
Proof. apply parseInt_printed. Qed.

Lemma parseInt_Number_toString_witness :
  isSafeInteger (-42) = true ∧ parseInt (Number_toString (-42)) = Some (-42).
Proof.
  split; [reflexivity |]. apply (parseInt_Number_toString (-42)). reflexivity.
Defined.

(** White space is neither a digit of any radix, nor a sign, nor part of
    the [0x] prefix. *)
Lemma white_space_facts (c : N) :
  isWhiteSpace c = true →
  (∀ R, digitValue R c = None)
  ∧ (c =? 0x2D)%N = false ∧ (c =? 0x2B)%N = false
  ∧ (c =? 0x30)%N = false ∧ (c =? 0x78)%N = false ∧ (c =? 0x58)%N = false.
Proof.
  unfold isWhiteSpace. intros H.
  repeat rewrite orb_true_iff in H. rewrite andb_true_iff in H.
  rewrite !N.eqb_eq, !N.leb_le in H.
  split.
  - intros R. unfold digitValue.
    destruct ((48 <=? c) && (c <=? 57))%N eqn:E1;
      [apply andb_true_iff in E1 as [?%N.leb_le ?%N.leb_le]; lia |].
    destruct ((97 <=? c) && (c <=? 122))%N eqn:E2;
      [apply andb_true_iff in E2 as [?%N.leb_le ?%N.leb_le]; lia |].
    destruct ((65 <=? c) && (c <=? 90))%N eqn:E3;
      [apply andb_true_iff in E3 as [?%N.leb_le ?%N.leb_le]; lia |].
    reflexivity.
  - repeat split; apply N.eqb_neq; lia.
Qed.

Lemma parseDigits_app_white (R : Z) (x r : jsstring) (seen : bool) (acc : Z) :
  Forall (λ c, isWhiteSpace c = true) r →
  parseDigits R (x ++ r) seen acc = parseDigits R x seen acc.
Proof.
  intros Hr. revert seen acc. induction x as [|c x IH]; intros seen acc; simpl.
  - destruct Hr as [|c r Hc _]; [reflexivity |]. simpl.
    rewrite (proj1 (white_space_facts c Hc)). reflexivity.
  - destruct (digitValue R c); [apply IH | reflexivity].
Qed.

Lemma parseInt_unsigned_app_white (sign : Z) (v r : jsstring) :
  Forall (λ c, isWhiteSpace c = true) r →
  parseInt_unsigned sign (v ++ r) = parseInt_unsigned sign v.
Proof.
  intros Hr. unfold parseInt_unsigned.
  destruct v as [|c0 [|c1 v]]; simpl.
  - destruct Hr as [|d0 r Hd0 Hr]; [reflexivity |].
    destruct (white_space_facts d0 Hd0) as (Hdig & _ & _ & Hz & _).
    assert (Hhex : stripHexPrefix (d0 :: r) = None).
    { destruct r; simpl; [reflexivity |]. rewrite Hz. reflexivity. }
    rewrite Hhex. simpl. rewrite Hdig. reflexivity.
  - destruct Hr as [|d1 r Hd1 Hr]; [reflexivity |].
    destruct (white_space_facts d1 Hd1) as (Hdig & _ & _ & _ & -> & ->).
    rewrite andb_false_r.
    change (parseDigits 10 (c0 :: d1 :: r) false 0)
      with (parseDigits 10 ([c0] ++ d1 :: r) false 0).
    rewrite parseDigits_app_white by (constructor; assumption). reflexivity.
  - destruct ((c0 =? 48)%N && ((c1 =? 120)%N || (c1 =? 88)%N)).
    + rewrite parseDigits_app_white by assumption. reflexivity.
    + change (parseDigits 10 (c0 :: c1 :: v ++ r) false 0)
        with (parseDigits 10 ((c0 :: c1 :: v) ++ r) false 0).
      rewrite parseDigits_app_white by assumption. reflexivity.
Qed.

Lemma parseInt_unfold (s : jsstring) :
  parseInt s =
    match trimStart s with
    | c :: r =>
        if (c =? 0x2D)%N then parseInt_unsigned (-1) r
        else if (c =? 0x2B)%N then parseInt_unsigned 1 r
        else parseInt_unsigned 1 (c :: r)
    | [] => parseInt_unsigned 1 []
    end.
Proof.
  unfold parseInt, parseInt_unsigned.
  destruct (trimStart s) as [|c r]; [reflexivity |].
  destruct (c =? 45)%N; [reflexivity |]. destruct (c =? 43)%N; reflexivity.
Qed.

(** White space after the text does not change what [parseInt] reads. *)
Lemma parseInt_app_white (u r : jsstring) :
  isWhiteSpace <$> head u ≠ Some true →
  Forall (λ c, isWhiteSpace c = true) r →
  parseInt (u ++ r) = parseInt u.
Proof.
  intros Hu Hr. rewrite !parseInt_unfold.
  destruct u as [|c u]; simpl app.
  - rewrite (proj2 (trimStart_nil_iff r) Hr). reflexivity.
  - rewrite (trimStart_fixed (c :: u ++ r)), (trimStart_fixed (c :: u))
      by exact Hu.
    destruct (c =? 45)%N; [apply parseInt_unsigned_app_white, Hr |].
    destruct (c =? 43)%N; [apply parseInt_unsigned_app_white, Hr |].
    apply (parseInt_unsigned_app_white 1 (c :: u) r Hr).
Qed.

Lemma trimStart_trimStart (s : jsstring) : trimStart (trimStart s) = trimStart s.
Proof. apply trimStart_fixed, head_trimStart. Qed.

(** X4. [parseInt(idStr.trim())] is [parseInt(idStr)]: white space around
    the id typed by the user plays no part, with or without the call of
    [trim]. *)
Theorem parseInt_trim (s : jsstring) : parseInt (trim s) = parseInt s.
Proof.
  transitivity (parseInt (trimStart s)).
  - destruct (trimEnd_split (trimStart s)) as (r & Hs & Hr).
    rewrite Hs at 1. symmetry.
    apply (parseInt_app_white (trim s) r); [apply head_trim | exact Hr].
  - rewrite !parseInt_unfold, trimStart_trimStart. reflexivity.
Qed.

(** ** More on the methods of the manager *)

(** X5. [listTasks] always completes and only prints: the header, then for
    an empty collection the notice 'Your task list is empty!', and otherwise
    one line per task, in the order of the collection, followed by the
    rule.  The manager, the pending answers and the loop flag are as
    before. *)
Theorem listTasks_prints_in_order (w : World) :
  ∃ w',
    listTasks w = (Normal tt, w')
    ∧ w'.(manager) = w.(manager)
    ∧ w'.(stdin) = w.(stdin) ∧ w'.(asked) = w.(asked)
    ∧ w'.(running) = w.(running)
    ∧ w'.(console)
      = w.(console)
        ++ (nl ++ lit "--- Current Tasks ---")
           :: match w.(manager).(tasks) with
              | [] => [lit "Your task list is empty!"]
              | ts => (task_line <$> ts) ++ [lit "---------------------"]
              end.
Proof.
  eexists. split; [apply listTasks_run |]. repeat split; reflexivity.
Qed.

(** X6. On any store, [removeTask id'] completes exactly when some task has
    the id, and throws otherwise; either way the collection afterwards
    holds exactly the tasks with another id, in their former order, and the
    counter is untouched. *)
Theorem removeTask_completes_iff_present (id' : Z) (w : World) :
  ((removeTask id' w).1 = Normal tt
   ↔ ∃ t, t ∈ w.(manager).(tasks) ∧ t.(id) = id')
  ∧ ((removeTask id' w).1 = Throw (not_found id')
     ↔ ¬ ∃ t, t ∈ w.(manager).(tasks) ∧ t.(id) = id')
  ∧ (removeTask id' w).2.(manager).(tasks)
    = filter (λ t, t.(id) ≠ id') w.(manager).(tasks)
  ∧ (removeTask id' w).2.(manager).(tasks) `sublist_of` w.(manager).(tasks)
  ∧ (removeTask id' w).2.(manager).(nextId) = w.(manager).(nextId).
Proof.
  rewrite removeTask_run. cbn zeta.
  assert (Hiff : length (filter (λ t, t.(id) ≠ id') w.(manager).(tasks))
                 = length w.(manager).(tasks)
                 ↔ ¬ ∃ t, t ∈ w.(manager).(tasks) ∧ t.(id) = id').
  { split.
    - intros Hlen (t & Hin & Hid).
      pose proof (length_filter_lt (λ t, t.(id) ≠ id') _ t Hin) as Hlt.
      apply filter_same_length in Hlen. rewrite Hlen in Hlt.
      assert (¬ t.(id) ≠ id') as Hn by (intros Hn; apply Hn, Hid).
      specialize (Hlt Hn). lia.
    - intros Hnone. rewrite filter_keeps_all; [reflexivity |].
      apply Forall_forall. intros t Hin Hid. apply Hnone. eauto. }
  destruct (decide _) as [Hlen | Hlen]; simpl.
  - split; [split; [discriminate | intros H; apply Hiff in Hlen; contradiction] |].
    split; [split; [intros _; apply Hiff, Hlen | reflexivity] |].
    split; [reflexivity |]. split; [apply sublist_filter | reflexivity].
  - split.
    { split; [intros _ | reflexivity].
      destruct (decide (Exists (λ t, t.(id) = id') w.(manager).(tasks)))
        as [Hex | Hnex]; [apply Exists_exists in Hex; exact Hex |].
      exfalso. apply Hlen, Hiff. intros Hex. apply Hnex, Exists_exists, Hex. }
    split; [split; [discriminate | intros H; apply Hiff in H; contradiction] |].
    split; [reflexivity |]. split; [apply sublist_filter | reflexivity].
Qed.

(** X7. Removing an id a second time always fails: after [removeTask id'],
    whether it completed or threw, [removeTask id'] throws 'Task with ID ...
    not found.' and changes nothing. *)
Theorem removeTask_twice (id' : Z) (w : World) :
  removeTask id' (removeTask id' w).2
  = (Throw (mkError (lit "Task with ID " ++ Number_toString id'
                     ++ lit " not found.")),
     (removeTask id' w).2).
Proof.
  assert (Hgone : filter (λ t, t.(id) ≠ id')
                    (removeTask id' w).2.(manager).(tasks)
                  = (removeTask id' w).2.(manager).(tasks)).
  { rewrite removeTask_run. cbn zeta.
    destruct (decide _); simpl; apply filter_keeps_all, Forall_forall;
      intros t Ht; apply list_elem_of_filter in Ht as [Ht _]; exact Ht. }
  rewrite (removeTask_run id' (removeTask id' w).2). cbn zeta.
  rewrite Hgone, decide_True by reflexivity.
  rewrite with_tasks_same. reflexivity.
Qed.

(** X8. With one of the two statuses and an id that no task has,
    [updateTaskStatus] throws 'Task with ID ... not found for update.' and
    the world is the one of before the call. *)
Theorem updateTaskStatus_unknown_id (id' : Z) (status' : jsstring) (w : World) :
  status' = lit "Pending" ∨ status' = lit "Completed" →
  (∀ t, t ∈ w.(manager).(tasks) → t.(id) ≠ id') →
  updateTaskStatus id' status' w
  = (Throw (mkError (lit "Task with ID " ++ Number_toString id'
                     ++ lit " not found for update.")), w).
Proof.
  intros Hst Hnone. rewrite updateTaskStatus_run.
  rewrite decide_False by (intros [HP HC]; destruct Hst; contradiction).
  rewrite (proj2 (list_find_None _ _)); [reflexivity |].
  apply Forall_forall. exact Hnone.
Qed.

Lemma updateTaskStatus_unknown_id_witness :
  (lit "Completed" = lit "Pending" ∨ lit "Completed" = lit "Completed")
  ∧ updateTaskStatus 5 (lit "Completed") two_tasks
    = (Throw (mkError (lit "Task with ID " ++ Number_toString 5
                       ++ lit " not found for update.")), two_tasks).
Proof.
  split; [right; reflexivity |].
  apply (updateTaskStatus_unknown_id 5 (lit "Completed") two_tasks).
  - right. reflexivity.
  - intros t Ht. vm_compute in Ht.
    apply elem_of_cons in Ht as [-> | Ht]; [discriminate |].
    apply elem_of_cons in Ht as [-> | Ht]; [discriminate |].
    inversion Ht.
Defined.

(** In a collection where [find] returned position [k], it returns position
    [k] again after the status of that task has been assigned. *)
Lemma list_find_after_set_status (ts : list Task) (id' : Z) (k : nat)
    (t : Task) (s : jsstring) :
  list_find (λ task, task.(id) = id') ts = Some (k, t) →
  list_find (λ task, task.(id) = id') (<[k := set_status s t]> ts)
  = Some (k, set_status s t).
Proof.
  intros (Hk & Hid & Hbefore)%list_find_Some. apply list_find_Some.
  split; [apply list_lookup_insert_eq; eapply lookup_lt_Some; exact Hk |].
  split; [exact Hid |].
  intros j y Hj Hlt. rewrite list_lookup_insert_ne in Hj by lia.
  eapply Hbefore; eassumption.
Qed.

(** X9. The last status assigned is the one that stays: when
    [updateTaskStatus id' s1] has completed, [updateTaskStatus id' s2] with
    one of the two statuses completes too and leaves the manager that
    [updateTaskStatus id' s2] alone would have left.  With [s1 = s2], a
    repeated update changes nothing more. *)
Theorem updateTaskStatus_last_write_wins
    (id' : Z) (s1 s2 : jsstring) (w w1 : World) :
  updateTaskStatus id' s1 w = (Normal tt, w1) →
  s2 = lit "Pending" ∨ s2 = lit "Completed" →
  ∃ w2 w2',
    updateTaskStatus id' s2 w1 = (Normal tt, w2)
    ∧ updateTaskStatus id' s2 w = (Normal tt, w2')
    ∧ w2.(manager) = w2'.(manager).
Proof.
  intros Hfirst Hs2. rewrite updateTaskStatus_run in Hfirst.
  destruct (decide _); [discriminate |].
  destruct (list_find _ _) as [[k t] |] eqn:Hfind; [| discriminate].
  injection Hfirst as <-.
  rewrite !updateTaskStatus_run.
  rewrite !decide_False by (intros [HP HC]; destruct Hs2; contradiction).
  rewrite Hfind. simpl.
  rewrite (list_find_after_set_status _ _ _ _ s1 Hfind).
  eexists _, _. split; [reflexivity |]. split; [reflexivity |].
  simpl. rewrite list_insert_insert_eq. reflexivity.
Qed.

Lemma updateTaskStatus_last_write_wins_witness :
  ∃ w2 w2',
    updateTaskStatus 2 (lit "Pending")
      (updateTaskStatus 2 (lit "Completed") two_tasks).2 = (Normal tt, w2)
    ∧ updateTaskStatus 2 (lit "Pending") two_tasks = (Normal tt, w2')
    ∧ w2.(manager) = w2'.(manager).
Proof.
  apply (updateTaskStatus_last_write_wins 2 (lit "Completed") (lit "Pending")
           two_tasks).
  - reflexivity.
  - left. reflexivity.
Defined.

(** X10. Adding a task and removing it again gives back the collection of
    before, in a store whose ids are below the counter (as in every store
    the program reaches); the counter has advanced, so the id is spent. *)
Theorem addTask_then_removeTask (name' description' : jsstring) (w : World) :
  trim name' ≠ [] →
  Forall (λ t, t.(id) < w.(manager).(nextId)) w.(manager).(tasks) →
  ∃ w1 w2,
    addTask name' description' w = (Normal tt, w1)
    ∧ removeTask w.(manager).(nextId) w1 = (Normal tt, w2)
    ∧ w2.(manager).(tasks) = w.(manager).(tasks)
    ∧ w2.(manager).(nextId) = w.(manager).(nextId) + 1.
Proof.
  intros Hname Hlt. eexists _, _.
  split; [apply addTask_run, Hname |].
  rewrite removeTask_run. cbn zeta. simpl.
  rewrite filter_app, filter_cons_False, filter_nil, app_nil_r
    by (simpl; intros H; apply H; reflexivity).
  rewrite filter_keeps_all
    by (eapply Forall_impl; [exact Hlt | simpl; intros; lia]).
  rewrite decide_False by (rewrite length_app; simpl; lia).
  repeat split; reflexivity.
Qed.

Lemma addTask_then_removeTask_witness :
  trim (lit "Task C") ≠ []
  ∧ Forall (λ t, t.(id) < two_tasks.(manager).(nextId))
      two_tasks.(manager).(tasks)
  ∧ ∃ w1 w2,
      addTask (lit "Task C") [] two_tasks = (Normal tt, w1)
      ∧ removeTask two_tasks.(manager).(nextId) w1 = (Normal tt, w2)
      ∧ w2.(manager).(tasks) = two_tasks.(manager).(tasks)
      ∧ w2.(manager).(nextId) = two_tasks.(manager).(nextId) + 1.
Proof.
  assert (Hlt : Forall (λ t, t.(id) < two_tasks.(manager).(nextId))
                  two_tasks.(manager).(tasks)).
  { repeat constructor. }
  split; [discriminate |]. split; [exact Hlt |].
  apply (addTask_then_removeTask (lit "Task C") [] two_tasks);
    [discriminate | exact Hlt].
Defined.

(** X11. Clearing does not restart the numbering: the first task added
    after [clearTasks] is alone in the collection and has the id the
    counter had before the clearing. *)
Theorem clearTasks_then_addTask (name' description' : jsstring) (w : World) :
  trim name' ≠ [] →
  ∃ w1 w2 t,
    clearTasks w = (Normal tt, w1)
    ∧ addTask name' description' w1 = (Normal tt, w2)
    ∧ w2.(manager).(tasks) = [t]
    ∧ t.(id) = w.(manager).(nextId)
    ∧ w2.(manager).(nextId) = w.(manager).(nextId) + 1.
Proof.
  intros Hname. eexists _, _, _.
  split; [apply clearTasks_run |].
  split; [apply addTask_run, Hname |].
  repeat split; reflexivity.
Qed.

Lemma clearTasks_then_addTask_witness :
  trim (lit "Task C") ≠ []
  ∧ ∃ w1 w2 t,
      clearTasks two_tasks = (Normal tt, w1)
      ∧ addTask (lit "Task C") [] w1 = (Normal tt, w2)
      ∧ w2.(manager).(tasks) = [t]
      ∧ t.(id) = two_tasks.(manager).(nextId)
      ∧ w2.(manager).(nextId) = two_tasks.(manager).(nextId) + 1.
Proof.
  split; [discriminate |].
  apply (clearTasks_then_addTask (lit "Task C") [] two_tasks). discriminate.
Defined.

(** ** Invariants of the manager along the program *)

Section ManagerInvariant.
Context (Q : TaskManager → Prop).
Hypothesis Q_addTask : ∀ n d, preserves (λ w, Q w.(manager)) (addTask n d).
Hypothesis Q_removeTask : ∀ i, preserves (λ w, Q w.(manager)) (removeTask i).
Hypothesis Q_updateTaskStatus :
  ∀ i s, preserves (λ w, Q w.(manager)) (updateTaskStatus i s).
Hypothesis Q_clearTasks : preserves (λ w, Q w.(manager)) clearTasks.

Lemma Q_listTasks : preserves (λ w, Q w.(manager)) listTasks.
Proof. intros w Hw. rewrite listTasks_run. exact Hw. Qed.

Lemma Q_perform (c : call) : preserves (λ w, Q w.(manager)) (perform c).
Proof.
  destruct c; simpl; auto using Q_listTasks.
Qed.

Lemma Q_perform_all (cs : list call) (w : World) :
  Q w.(manager) → Q (perform_all cs w).(manager).
Proof.
  revert w. induction cs as [|c cs IH]; intros w Hw; simpl; [exact Hw |].
  apply IH. apply (Q_perform c w Hw).
Qed.

Lemma Q_menu_switch (selected : jsstring) :
  preserves (λ w, Q w.(manager)) (menu_switch selected).
Proof.
  destruct (decide (selected = lit "6")) as [-> | Hsel].
  - intros w Hw. rewrite menu_switch_6. exact Hw.
  - apply preserves_menu_switch; auto using Q_listTasks.
Qed.

Lemma Q_cycle : preserves (λ w, Q w.(manager)) cycle.
Proof.
  intros w Hw. rewrite cycle_run.
  apply (preserves_try_catch (λ w, Q w.(manager)));
    [| intros e w1 Hw1; exact Hw1 | exact Hw].
  intros w1 Hw1. unfold try_block. destruct (negb _); [exact Hw1 |].
  revert w1 Hw1.
  apply (preserves_bind (λ w, Q w.(manager))); [apply Q_menu_switch |].
  intros _.
  apply (preserves_bind (λ w, Q w.(manager))); [apply preserves_get_running |].
  intros [|] w1 Hw1; exact Hw1.
Qed.

Lemma Q_while_running (fuel : nat) :
  preserves (λ w, Q w.(manager)) (while_running fuel).
Proof.
  induction fuel as [|fuel IH]; simpl; [apply preserves_ret |].
  apply (preserves_bind (λ w, Q w.(manager))); [apply preserves_get_running |].
  intros [|]; [| apply preserves_ret].
  apply (preserves_bind (λ w, Q w.(manager))); [apply Q_cycle | intros _; exact IH].
Qed.

Lemma Q_runMenu (fuel : nat) (w : World) :
  Q w.(manager) → Q (runMenu fuel w).2.(manager).
Proof.
  intros Hw.
  assert (H : preserves (λ w, Q w.(manager)) (runMenu fuel)).
  { apply (preserves_bind (λ w, Q w.(manager))); [intros w0 Hw0; exact Hw0 |].
    intros _. apply Q_while_running. }
  apply (H w Hw).
Qed.
End ManagerInvariant.

Lemma task_ok_new (name' description' : jsstring) :
  trim name' ≠ [] →
  task_ok {| id := 0; name := trim name';
             description := or_else (trim description') placeholder;
             status := Pending |}.
Proof.
  intros Hname. unfold task_ok. simpl.
  split; [exact Hname |]. split; [apply trim_trim |].
  split; [| left; reflexivity].
  rewrite or_else_decide. destruct (decide _); [discriminate | assumption].
Qed.

Lemma tasks_ok_methods :
  (∀ n d, preserves (λ w, Forall task_ok w.(manager).(tasks)) (addTask n d))
  ∧ (∀ i, preserves (λ w, Forall task_ok w.(manager).(tasks)) (removeTask i))
  ∧ (∀ i s, preserves (λ w, Forall task_ok w.(manager).(tasks))
              (updateTaskStatus i s))
  ∧ preserves (λ w, Forall task_ok w.(manager).(tasks)) clearTasks.
Proof.
  repeat split.
  - intros n d w Hw. destruct (decide (trim n = [])) as [He | Hne].
    + rewrite addTask_throw by assumption. exact Hw.
    + rewrite addTask_run by assumption. simpl.
      apply Forall_app. split; [exact Hw |]. constructor; [| constructor].
      apply (task_ok_new n d Hne).
  - intros i w Hw. rewrite removeTask_run. cbn zeta.
    assert (Hf : Forall task_ok (filter (λ t, t.(id) ≠ i) w.(manager).(tasks))).
    { rewrite Forall_forall in Hw |- *. intros t Ht.
      apply list_elem_of_filter in Ht as [_ Ht]. auto. }
    destruct (decide _); exact Hf.
  - intros i s w Hw. rewrite updateTaskStatus_run.
    destruct (decide _) as [| Hvalid]; [exact Hw |].
    destruct (list_find _ _) as [[k t] |] eqn:Hfind; [| exact Hw].
    apply list_find_Some in Hfind as (Hk & _ & _). simpl.
    apply Forall_insert; [exact Hw |].
    rewrite Forall_forall in Hw.
    destruct (Hw t) as (Hn & Htr & Hd & _).
    { eapply list_elem_of_lookup_2. exact Hk. }
    unfold task_ok. simpl. repeat split; try assumption.
    destruct (decide (s = Pending)) as [-> | HP]; [left; reflexivity |].
    destruct (decide (s = Completed)) as [-> | HC]; [right; reflexivity |].
    exfalso. apply Hvalid. split; assumption.
  - intros w _. constructor.
Qed.

(** X12. Whatever is typed and however long the program runs, and along
    every sequence of calls, each stored task has a name that is not empty
    and has no white space at its ends, a description that is not empty, and
    the status 'Pending' or 'Completed'. *)
Theorem stored_tasks_wellformed
    (fuel : nat) (cs : list call) (answers : nat → option jsstring) :
  Forall
    (λ t, t.(name) ≠ [] ∧ trim t.(name) = t.(name) ∧ t.(description) ≠ []
          ∧ (t.(status) = lit "Pending" ∨ t.(status) = lit "Completed"))
    (runMenu fuel (initial_world answers)).2.(manager).(tasks)
  ∧ Forall
      (λ t, t.(name) ≠ [] ∧ trim t.(name) = t.(name) ∧ t.(description) ≠ []
            ∧ (t.(status) = lit "Pending" ∨ t.(status) = lit "Completed"))
      (perform_all cs (initial_world answers)).(manager).(tasks).
Proof.
  destruct tasks_ok_methods as (Ha & Hr & Hu & Hc).
  split.
  - apply (Q_runMenu (λ m, Forall task_ok m.(tasks)) Ha Hr Hu Hc). constructor.
  - apply (Q_perform_all (λ m, Forall task_ok m.(tasks)) Ha Hr Hu Hc).
    constructor.
Qed.

Lemma sorted_ids_filter (P : Task → Prop) `{!∀ x, Decision (P x)}
    (ts : list Task) :
  StronglySorted Z.lt (id <$> ts) → StronglySorted Z.lt (id <$> filter P ts).
Proof.
  induction ts as [|t ts IH]; [intros _; constructor |].
  rewrite fmap_cons. intros [Hall Hs]%StronglySorted_cons.
  rewrite filter_cons. destruct (decide (P t)); [| apply IH, Hs].
  rewrite fmap_cons. apply StronglySorted_cons. split; [| apply IH, Hs].
  rewrite Forall_forall in Hall |- *. intros i Hi.
  apply Hall. eapply elem_of_ids_filter. exact Hi.
Qed.

Lemma ids_ok_methods :
  (∀ n d, preserves (λ w, ids_ok w.(manager)) (addTask n d))
  ∧ (∀ i, preserves (λ w, ids_ok w.(manager)) (removeTask i))
  ∧ (∀ i s, preserves (λ w, ids_ok w.(manager)) (updateTaskStatus i s))
  ∧ preserves (λ w, ids_ok w.(manager)) clearTasks.
Proof.
  unfold ids_ok. split; [| split; [| split]].
  - intros n d w (Hs & Hb & Hl). destruct (decide (trim n = [])) as [He | Hne].
    + rewrite addTask_throw by assumption. auto.
    + rewrite addTask_run by assumption. simpl.
      rewrite fmap_app, length_app. simpl. split; [| split].
      * apply StronglySorted_app_2; [| exact Hs | repeat constructor].
        intros x1 x2 Hx1 ->%list_elem_of_singleton.
        rewrite Forall_forall in Hb. apply Hb, Hx1.
      * apply Forall_app. split.
        -- eapply Forall_impl; [exact Hb |]. simpl. intros. lia.
        -- constructor; [lia | constructor].
      * lia.
  - intros i w (Hs & Hb & Hl). rewrite removeTask_run. cbn zeta.
    assert (Hok : StronglySorted Z.lt
                    (id <$> filter (λ t, t.(id) ≠ i) w.(manager).(tasks))
                  ∧ Forall (λ j, 1 ≤ j < w.(manager).(nextId))
                      (id <$> filter (λ t, t.(id) ≠ i) w.(manager).(tasks))
                  ∧ Z.of_nat (length (filter (λ t, t.(id) ≠ i)
                                        w.(manager).(tasks)))
                    < w.(manager).(nextId)).
    { split; [apply sorted_ids_filter, Hs |]. split.
      - rewrite Forall_forall in Hb |- *. intros j Hj.
        apply Hb. eapply elem_of_ids_filter. exact Hj.
      - pose proof (length_filter (λ t, t.(id) ≠ i) w.(manager).(tasks)). lia. }
    destruct (decide _); exact Hok.
  - intros i s w Hw. rewrite updateTaskStatus_run.
    destruct (decide _); [exact Hw |].
    destruct (list_find _ _) as [[k t] |] eqn:Hfind; [| exact Hw].
    apply list_find_Some in Hfind as (Hk & _ & _). simpl.
    rewrite ids_set_status, length_insert by assumption. exact Hw.
  - intros w (_ & _ & Hl). simpl. split; [constructor |].
    split; [constructor | lia].
Qed.

Lemma ids_ok_new : ids_ok new_TaskManager.
Proof. unfold ids_ok. simpl. split; [constructor |]. split; [constructor | lia]. Qed.

(** X13. Whatever is typed and however long the program runs, and along
    every sequence of calls, the ids of the stored tasks grow strictly along
    the collection (so the listing is in order of creation and no id occurs
    twice), each id lies between 1 and the counter, and the collection holds
    fewer tasks than the counter says. *)
Theorem stored_ids_increasing
    (fuel : nat) (cs : list call) (answers : nat → option jsstring) :
  let m := (runMenu fuel (initial_world answers)).2.(manager) in
  let m' := (perform_all cs (initial_world answers)).(manager) in
  (StronglySorted Z.lt (id <$> m.(tasks))
   ∧ Forall (λ i, 1 ≤ i < m.(nextId)) (id <$> m.(tasks))
   ∧ Z.of_nat (length m.(tasks)) < m.(nextId))
  ∧ (StronglySorted Z.lt (id <$> m'.(tasks))
     ∧ Forall (λ i, 1 ≤ i < m'.(nextId)) (id <$> m'.(tasks))
     ∧ Z.of_nat (length m'.(tasks)) < m'.(nextId)).
Proof.
  destruct ids_ok_methods as (Ha & Hr & Hu & Hc).
  split.
  - apply (Q_runMenu ids_ok Ha Hr Hu Hc). apply ids_ok_new.
  - apply (Q_perform_all ids_ok Ha Hr Hu Hc). apply ids_ok_new.
Qed.

Lemma perform_all_counter (cs : list call) (w : World) :
  (perform_all cs w).(manager).(nextId)
  = w.(manager).(nextId) + Z.of_nat (count_successful_adds cs).
Proof.
  revert w. induction cs as [|c cs IH]; intros w; simpl; [lia |].
  rewrite IH, (proj1 (perform_counter c w)).
  destruct (successful_add c); lia.
Qed.

(** X14. The counter counts the additions that completed: after any
    sequence of calls from program start it is one more than their number;
    removals, clearings, listings, status updates and failed calls do not
    move it. *)
Theorem counter_counts_additions
    (cs : list call) (answers : nat → option jsstring) :
  (perform_all cs (initial_world answers)).(manager).(nextId)
  = 1 + Z.of_nat (count_successful_adds cs).
Proof. rewrite perform_all_counter. reflexivity. Qed.

(** ** What the methods leave alone, and how they fail *)

Lemma prefix_logged (lines : list jsstring) (w : World) :
  w.(console) `prefix_of` (logged lines w).(console).
Proof. exists lines. reflexivity. Qed.

(** A method reads no answer, keeps the loop flag, and only adds lines to
    the console. *)
Lemma perform_io (c : call) (w : World) :
  (perform c w).2.(stdin) = w.(stdin)
  ∧ (perform c w).2.(asked) = w.(asked)
  ∧ (perform c w).2.(running) = w.(running)
  ∧ w.(console) `prefix_of` (perform c w).2.(console).
Proof.
  destruct c as [n d | i | | i s |]; simpl.
  - destruct (decide (trim n = [])).
    + rewrite addTask_throw by assumption. simpl. auto.
    + rewrite addTask_run by assumption. simpl.
      repeat split. eexists. reflexivity.
  - rewrite removeTask_run. cbn zeta. destruct (decide _); simpl.
    + auto.
    + repeat split. eexists. reflexivity.
  - rewrite listTasks_run. simpl. repeat split. eexists. reflexivity.
  - rewrite updateTaskStatus_run. destruct (decide _); [simpl; auto |].
    destruct (list_find _ _) as [[k t] |]; simpl; [| auto].
    repeat split. eexists. reflexivity.
  - repeat split. eexists. reflexivity.
Qed.

(** X15. The methods of the manager never read from the console and never
    touch the loop flag; what they have printed stays, they only add
    lines. *)
Theorem methods_only_print (c : call) (w : World) :
  (perform c w).2.(stdin) = w.(stdin)
  ∧ (perform c w).2.(asked) = w.(asked)
  ∧ (perform c w).2.(running) = w.(running)
  ∧ w.(console) `prefix_of` (perform c w).2.(console).
Proof. apply perform_io. Qed.

(** A method that throws has changed nothing, and it throws one of its own
    errors, for the reason the message gives. *)
Lemma perform_throw (c : call) (w w' : World) (e : Error) :
  perform c w = (Throw e, w') → w' = w ∧ thrown_by c w.(manager) e.
Proof.
  destruct c as [n d | i | | i s |]; simpl.
  - destruct (decide (trim n = [])) as [He | Hne].
    + rewrite addTask_throw by assumption. intros [= <- <-]. auto.
    + rewrite addTask_run by assumption. discriminate.
  - rewrite removeTask_run. cbn zeta.
    destruct (decide _) as [Hlen | Hlen]; [| discriminate].
    intros [= <- <-]. apply filter_same_length in Hlen.
    rewrite Hlen, with_tasks_same. split; [reflexivity |].
    split; [| reflexivity].
    intros t Ht. rewrite <- Hlen in Ht.
    apply list_elem_of_filter in Ht as [Hid _]. exact Hid.
  - rewrite listTasks_run. discriminate.
  - rewrite updateTaskStatus_run.
    destruct (decide _) as [[HP HC] | Hvalid].
    + intros [= <- <-]. split; [reflexivity |]. left. auto.
    + destruct (list_find _ _) as [[k t] |] eqn:Hfind; [discriminate |].
      intros [= <- <-]. split; [reflexivity |]. right.
      split; [| split; [| reflexivity]].
      * destruct (decide (s = Pending)); [left; assumption |].
        destruct (decide (s = Completed)); [right; assumption |].
        exfalso. apply Hvalid. split; assumption.
      * apply list_find_None in Hfind. rewrite Forall_forall in Hfind.
        exact Hfind.
  - discriminate.
Qed.

(** X16. A method that throws has changed nothing: the world after the
    failed call is the world of before, console included.  It throws for
    the reason its message gives: a blank name, an unknown status, or an id
    that no task has; listing and clearing never throw. *)
Theorem failed_call_changes_nothing (c : call) (w w' : World) (e : Error) :
  perform c w = (Throw e, w') →
  w' = w
  ∧ match c with
    | CallAdd name' _ =>
        trim name' = [] ∧ e = mkError (lit "Task name cannot be empty.")
    | CallRemove id' =>
        (∀ t, t ∈ w.(manager).(tasks) → t.(id) ≠ id')
        ∧ e = mkError (lit "Task with ID " ++ Number_toString id'
                       ++ lit " not found.")
    | CallList => False
    | CallUpdateStatus id' status' =>
        (status' ≠ lit "Pending" ∧ status' ≠ lit "Completed"
         ∧ e = mkError (lit "Invalid status: '" ++ status'
                        ++ lit "'. Must be 'Pending' or 'Completed'."))
        ∨ ((status' = lit "Pending" ∨ status' = lit "Completed")
           ∧ (∀ t, t ∈ w.(manager).(tasks) → t.(id) ≠ id')
           ∧ e = mkError (lit "Task with ID " ++ Number_toString id'
                          ++ lit " not found for update."))
    | CallClear => False
    end.
Proof. intros H. apply perform_throw in H. exact H. Qed.

Lemma failed_call_changes_nothing_witness :
  perform (CallRemove 7) two_tasks = (Throw (not_found 7), two_tasks)
  ∧ two_tasks = two_tasks
  ∧ (∀ t, t ∈ two_tasks.(manager).(tasks) → t.(id) ≠ 7)
  ∧ not_found 7 = mkError (lit "Task with ID " ++ Number_toString 7
                           ++ lit " not found.").
Proof.
  split; [reflexivity |].
  apply (failed_call_changes_nothing (CallRemove 7) two_tasks two_tasks
           (not_found 7)).
  reflexivity.
Defined.

(** ** One iteration of the menu, branch by branch *)

Lemma menu_switch_1 (w : World) :
  menu_switch (lit "1") w =
    addTask (or_empty (w.(stdin) w.(asked)))
      (or_empty (w.(stdin) (S w.(asked)))) (prompted (prompted w)).
Proof.
  unfold menu_switch. rewrite decide_True by reflexivity. reflexivity.
Qed.

Lemma menu_switch_2 (w : World) : menu_switch (lit "2") w = listTasks w.
Proof.
  unfold menu_switch.
  rewrite !decide_False by label_neq. rewrite decide_True by reflexivity.
  reflexivity.
Qed.

Lemma menu_switch_5 (w : World) : menu_switch (lit "5") w = clearTasks w.
Proof.
  unfold menu_switch.
  rewrite !decide_False by label_neq. rewrite decide_True by reflexivity.
  reflexivity.
Qed.

Lemma menu_switch_default (selected : jsstring) (w : World) :
  selected ≠ lit "1" → selected ≠ lit "2" → selected ≠ lit "3" →
  selected ≠ lit "4" → selected ≠ lit "5" → selected ≠ lit "6" →
  menu_switch selected w =
    (Normal tt,
     logged [icon_cross
             ++ lit " Invalid selection. Please choose a number between 1 and 6."]
       w).
Proof.
  intros. unfold menu_switch. rewrite !decide_False by assumption. reflexivity.
Qed.

(** Splits a goal about [menu_switch selected w] along the seven branches of
    the [switch]. *)
Ltac menu_cases selected :=
  destruct (decide (selected = lit "1")) as [-> | ?];
    [rewrite ?menu_switch_1 |
  destruct (decide (selected = lit "2")) as [-> | ?];
    [rewrite ?menu_switch_2 |
  destruct (decide (selected = lit "3")) as [-> | ?];
    [rewrite ?menu_switch_3 |
  destruct (decide (selected = lit "4")) as [-> | ?];
    [rewrite ?menu_switch_4 |
  destruct (decide (selected = lit "5")) as [-> | ?];
    [rewrite ?menu_switch_5 |
  destruct (decide (selected = lit "6")) as [-> | ?];
    [rewrite ?menu_switch_6 |
     rewrite ?menu_switch_default by assumption]]]]]].

(** A branch that throws has left the manager as it was, and throws one of
    the five errors of the program. *)
Lemma menu_switch_throw (selected : jsstring) (w w' : World) (e : Error) :
  menu_switch selected w = (Throw e, w') →
  w'.(manager) = w.(manager) ∧ program_error e.
Proof.
  unfold program_error. menu_cases selected.
  - intros H. apply (perform_throw (CallAdd _ _)) in H as [-> [_ ->]]. auto.
  - rewrite listTasks_run. discriminate.
  - destruct (parseInt _) as [num |].
    + intros H. apply (perform_throw (CallRemove num)) in H as [-> [_ ->]].
      split; [reflexivity |]. right. right. left. eauto.
    + intros [= <- <-]. auto.
  - rewrite listTasks_run. simpl. destruct (parseInt _) as [num |].
    + intros H.
      apply (perform_throw (CallUpdateStatus num _)) in H
        as [-> [(_ & _ & ->) | (_ & _ & ->)]].
      * split; [reflexivity |]. do 4 right. eauto.
      * split; [reflexivity |]. do 3 right. left. eauto.
    + intros [= <- <-]. auto.
  - discriminate.
  - discriminate.
  - discriminate.
Qed.

(** The world an iteration leaves is the world its branch leaves, or, when
    no choice was typed, the world after the menu and the prompt, with some
    more lines on the console. *)
Lemma cycle_after (w : World) :
  let choice := w.(stdin) w.(asked) in
  let w0 := prompted (logged menu_lines w) in
  ∃ lines,
    (cycle w).2
    = logged lines
        (if truthy_opt choice
         then (menu_switch (trim (or_empty choice)) w0).2
         else w0).
Proof.
  cbn zeta. rewrite cycle_run. unfold try_catch, try_block.
  destruct (truthy_opt _); simpl.
  - unfold mbind at 1, M_bind at 1.
    destruct (menu_switch _ _) as [[[] | e] w1]; simpl.
    + run_body. destruct w1.(running); simpl.
      * eexists. reflexivity.
      * exists []. rewrite logged_nil. reflexivity.
    + eexists. reflexivity.
  - eexists. reflexivity.
Qed.

(** X17. An iteration that reports an error has not changed the store, and
    the error is one of five: the blank name, the malformed id, the id not
    found by the removal, the id not found by the status update, or the
    unknown status. *)
Theorem failed_cycle_keeps_store (w w1 : World) (e : Error) :
  try_block (w.(stdin) w.(asked)) (prompted (logged menu_lines w))
  = (Throw e, w1) →
  (cycle w).2.(manager) = w.(manager)
  ∧ (cycle w).2.(console)
    = w1.(console) ++ [nl ++ icon_siren ++ lit " Operation Failed: "
                       ++ e.(message)]
  ∧ (e = mkError (lit "Task name cannot be empty.")
     ∨ e = mkError (lit "Invalid ID entered.")
     ∨ (∃ id', e = mkError (lit "Task with ID " ++ Number_toString id'
                            ++ lit " not found."))
     ∨ (∃ id', e = mkError (lit "Task with ID " ++ Number_toString id'
                            ++ lit " not found for update."))
     ∨ (∃ status', e = mkError (lit "Invalid status: '" ++ status'
                                ++ lit "'. Must be 'Pending' or 'Completed'."))).
Proof.
  intros Htry. rewrite cycle_run. unfold try_catch. rewrite Htry. simpl.
  unfold try_block in Htry. destruct (negb _); [discriminate |].
  unfold mbind at 1, M_bind at 1 in Htry.
  destruct (menu_switch _ _) as [[[] | e'] w1'] eqn:Hsw.
  - revert Htry. run_body. destruct w1'.(running); discriminate.
  - injection Htry as -> ->.
    apply menu_switch_throw in Hsw as [Hm He]. simpl in Hm.
    split; [exact Hm |]. split; [reflexivity | exact He].
Qed.

Lemma failed_cycle_keeps_store_witness :
  let w := initial_world (script [lit "3"; lit "x"]) in
  try_block (w.(stdin) w.(asked)) (prompted (logged menu_lines w))
  = (Throw invalid_id, prompted (prompted (logged menu_lines w)))
  ∧ (cycle w).2.(manager) = w.(manager).
Proof.
  cbn zeta. split; [reflexivity |].
  apply (failed_cycle_keeps_store (initial_world (script [lit "3"; lit "x"]))
           (prompted (prompted (logged menu_lines
              (initial_world (script [lit "3"; lit "x"])))))
           invalid_id).
  reflexivity.
Defined.

Lemma manager_after_listTasks (w : World) :
  (listTasks w).2.(manager) = w.(manager).
Proof. rewrite listTasks_run. reflexivity. Qed.

(** X18. Only the choices '1', '3', '4' and '5' can change the store: after
    an iteration with any other choice (listing, exit, an unknown label, a
    blank or missing answer) the manager is what it was. *)
Theorem store_changed_only_by_four_choices (w : World) :
  trim (or_empty (w.(stdin) w.(asked))) ≠ lit "1" →
  trim (or_empty (w.(stdin) w.(asked))) ≠ lit "3" →
  trim (or_empty (w.(stdin) w.(asked))) ≠ lit "4" →
  trim (or_empty (w.(stdin) w.(asked))) ≠ lit "5" →
  (cycle w).2.(manager) = w.(manager).
Proof.
  intros H1 H3 H4 H5. destruct (cycle_after w) as [lines ->]. simpl.
  destruct (truthy_opt _); [| reflexivity].
  remember (trim (or_empty (w.(stdin) w.(asked)))) as selected eqn:Hsel.
  clear Hsel. menu_cases selected; try contradiction.
  - rewrite manager_after_listTasks. reflexivity.
  - reflexivity.
  - reflexivity.
Qed.

Lemma store_changed_only_by_four_choices_witness :
  let w := (addTask (lit "Task A") []
              (initial_world (script [lit " 2 "]))).2 in
  trim (or_empty (w.(stdin) w.(asked))) = lit "2"
  ∧ (cycle w).2.(manager) = w.(manager).
Proof.
  cbn zeta. split; [reflexivity |].
  apply (store_changed_only_by_four_choices
           (addTask (lit "Task A") [] (initial_world (script [lit " 2 "]))).2);
    label_neq.
Defined.

(** Rewrites the tests of the labels once the label is known. *)
Ltac decide_labels :=
  repeat first
    [ rewrite decide_True by reflexivity
    | rewrite decide_False by first [assumption | label_neq] ].

(** What a branch reads and prints. *)
Lemma menu_switch_io (selected : jsstring) (w : World) :
  (menu_switch selected w).2.(stdin) = w.(stdin)
  ∧ (menu_switch selected w).2.(asked)
    = (w.(asked)
       + (if decide (selected = lit "1") then 2
          else if decide (selected = lit "3") then 1
          else if decide (selected = lit "4") then
            match parseInt (trim (or_empty (w.(stdin) w.(asked)))) with
            | Some _ => 2
            | None => 1
            end
          else 0))%nat
  ∧ w.(console) `prefix_of` (menu_switch selected w).2.(console).
Proof.
  menu_cases selected; decide_labels.
  - destruct (perform_io (CallAdd (or_empty (w.(stdin) w.(asked)))
                            (or_empty (w.(stdin) (S w.(asked)))))
                (prompted (prompted w))) as (Hs & Ha & _ & Hc).
    simpl in *. rewrite Hs, Ha. split; [reflexivity |]. split; [lia | exact Hc].
  - rewrite listTasks_run. simpl. split; [reflexivity |].
    split; [lia | apply prefix_logged].
  - destruct (parseInt _) as [num |]; simpl.
    + destruct (perform_io (CallRemove num) (prompted w)) as (Hs & Ha & _ & Hc).
      simpl in *. rewrite Hs, Ha. split; [reflexivity |]. split; [lia | exact Hc].
    + split; [reflexivity |]. split; [lia | reflexivity].
  - rewrite listTasks_run. simpl. destruct (parseInt _) as [num |]; simpl.
    + match goal with |- context [updateTaskStatus ?i ?s ?w0] =>
        destruct (perform_io (CallUpdateStatus i s) w0) as (Hs & Ha & _ & Hc)
      end.
      simpl in *. rewrite Hs, Ha. split; [reflexivity |]. split; [lia |].
      etransitivity; [| exact Hc]. eexists. reflexivity.
    + split; [reflexivity |]. split; [lia |]. eexists. reflexivity.
  - simpl. split; [reflexivity |]. split; [lia |]. eexists. reflexivity.
  - simpl. split; [reflexivity |]. split; [lia |]. eexists. reflexivity.
  - simpl. split; [reflexivity |]. split; [lia |]. eexists. reflexivity.
Qed.

(** X19. An iteration prints the menu first, never rewrites what is on the
    console, and reads one answer for the choice and then those its branch
    asks for: two more for an addition, one more for a removal, one more
    for a status update whose id is malformed and two more otherwise, none
    for the other choices. *)
Theorem cycle_reads_its_answers (w : World) :
  let selected := trim (or_empty (w.(stdin) w.(asked))) in
  (cycle w).2.(stdin) = w.(stdin)
  ∧ (cycle w).2.(asked)
    = (S w.(asked)
       + (if decide (selected = lit "1") then 2
          else if decide (selected = lit "3") then 1
          else if decide (selected = lit "4") then
            match parseInt (trim (or_empty (w.(stdin) (S w.(asked))))) with
            | Some _ => 2
            | None => 1
            end
          else 0))%nat
  ∧ (w.(console) ++ menu_lines) `prefix_of` (cycle w).2.(console).
Proof.
  cbn zeta. destruct (cycle_after w) as [lines ->]. simpl.
  destruct (truthy_opt _) eqn:Hchoice.
  - destruct (menu_switch_io (trim (or_empty (w.(stdin) w.(asked))))
                (prompted (logged menu_lines w))) as (Hs & Ha & Hc).
    simpl in Hs, Ha, Hc. rewrite Hs, Ha.
    split; [reflexivity |]. split; [reflexivity |].
    etransitivity; [exact Hc |]. eexists. reflexivity.
  - assert (Hsel : trim (or_empty (w.(stdin) w.(asked))) = []).
    { destruct (w.(stdin) w.(asked)) as [[|c s] |]; simpl in Hchoice;
        try discriminate; reflexivity. }
    rewrite Hsel. decide_labels. simpl.
    split; [reflexivity |]. split; [lia |]. eexists. reflexivity.
Qed.

(** ** What [parseInt] lets through *)

Lemma not_decimal_digit (c : N) :
  isDecimalDigit c = false → digitValue 10 c = None.
Proof.
  unfold isDecimalDigit, digitValue. intros ->.
  destruct ((97 <=? c) && (c <=? 122))%N eqn:E1.
  { apply andb_true_iff in E1 as [?%N.leb_le ?%N.leb_le].
    destruct (Z.ltb_spec (Z.of_N c - 97 + 10) 10); [lia | reflexivity]. }
  destruct ((65 <=? c) && (c <=? 90))%N eqn:E2; [| reflexivity].
  apply andb_true_iff in E2 as [?%N.leb_le ?%N.leb_le].
  destruct (Z.ltb_spec (Z.of_N c - 65 + 10) 10); [lia | reflexivity].
Qed.

(** Reading digits stops at the first code unit that is not one. *)
Lemma parseDigits_app_stop (R : Z) (x rest : jsstring) (seen : bool) (acc : Z) :
  head rest ≫= digitValue R = None →
  parseDigits R (x ++ rest) seen acc = parseDigits R x seen acc.
Proof.
  intros Hrest. revert seen acc.
  induction x as [|c x IH]; intros seen acc; simpl.
  - destruct rest as [|c r]; [reflexivity |]. simpl in Hrest |- *.
    rewrite Hrest. reflexivity.
  - destruct (digitValue R c); [apply IH | reflexivity].
Qed.

Lemma parseInt_digits_then_text (s rest : jsstring) :
  s ≠ [] →
  Forall (λ c, isDecimalDigit c = true) s →
  isDecimalDigit <$> head rest ≠ Some true →
  head rest ≠ Some 0x78%N → head rest ≠ Some 0x58%N →
  parseInt (s ++ rest) = parseInt s
  ∧ parseInt (0x2D%N :: s ++ rest) = parseInt (0x2D%N :: s).
Proof.
  intros Hne Hs Hd Hx HX.
  assert (Hstop : head rest ≫= digitValue 10 = None).
  { destruct rest as [|c r]; [reflexivity |]. simpl in *.
    apply not_decimal_digit. destruct (isDecimalDigit c); [| reflexivity].
    exfalso. apply Hd. reflexivity. }
  assert (Hun : ∀ sign, parseInt_unsigned sign (s ++ rest)
                        = parseInt_unsigned sign s).
  { intros sign. unfold parseInt_unsigned.
    assert (Hhex : stripHexPrefix (s ++ rest) = None ∧ stripHexPrefix s = None).
    { destruct s as [|c0 [|c1 s]]; [contradiction | |].
      - split; [| reflexivity]. destruct rest as [|c r]; [reflexivity |].
        simpl in *. destruct (N.eqb_spec c 120); [subst; contradiction |].
        destruct (N.eqb_spec c 88); [subst; contradiction |].
        rewrite andb_false_r. reflexivity.
      - inversion Hs as [|? ? _ Hr]. inversion Hr as [|? ? Hc1 _].
        destruct (decimal_digit_facts _ Hc1) as (_ & _ & _ & E1 & E2).
        simpl. rewrite E1, E2, andb_false_r. auto. }
    destruct Hhex as [-> ->].
    rewrite parseDigits_app_stop by assumption. reflexivity. }
  destruct s as [|c s]; [contradiction |].
  inversion Hs as [|? ? Hc _].
  destruct (decimal_digit_facts _ Hc) as (Hws & Hm & Hp & _).
  rewrite !parseInt_unfold. simpl trimStart.
  rewrite Hws. change (isWhiteSpace 45) with false. cbv iota.
  rewrite Hm, Hp. change (45 =? 45)%N with true. cbv iota.
  split; [apply (Hun 1) | apply (Hun (-1))].
Qed.

(** X20. [parseInt] reads a prefix: the printed form of a safe integer
    (below 2^53 in magnitude) followed by any text that begins neither with
    a decimal digit nor with [x] or [X] is read as that integer.  So an
    answer such as '12abc' or '3.7' to the id prompt is taken for the id 12,
    resp. 3. *)
Theorem parseInt_reads_a_prefix (n : Z) (rest : jsstring) :
  isSafeInteger n = true →
  isDecimalDigit <$> head rest ≠ Some true →
  head rest ≠ Some 0x78%N → head rest ≠ Some 0x58%N →
  parseInt (Number_toString n ++ rest) = Some n.
Proof.
  intros Hsafe Hd Hx HX. rewrite <- (parseInt_printed n Hsafe).
  unfold Number_toString.
  destruct (Z.to_int n) as [d | d] eqn:Hn.
  - assert (Hnil : d ≠ Decimal.Nil).
    { destruct n; simpl in Hn; try discriminate; injection Hn as <-;
        [discriminate | apply DecimalPos.Unsigned.to_uint_nonnil]. }
    simpl NilZero.string_of_int.
    replace (NilZero.string_of_uint d) with (NilEmpty.string_of_uint d)
      by (destruct d; [contradiction | reflexivity..]).
    apply parseInt_digits_then_text; try assumption; [| apply printed_digits].
    destruct d; [contradiction | ..]; simpl NilEmpty.string_of_uint;
      rewrite lit_String; discriminate.
  - assert (Hnil : d ≠ Decimal.Nil).
    { destruct n; simpl in Hn; try discriminate. injection Hn as <-.
      apply DecimalPos.Unsigned.to_uint_nonnil. }
    simpl NilZero.string_of_int.
    replace (NilZero.string_of_uint d) with (NilEmpty.string_of_uint d)
      by (destruct d; [contradiction | reflexivity..]).
    rewrite lit_String. change (N_of_ascii "-") with 45%N.
    apply parseInt_digits_then_text; try assumption; [| apply printed_digits].
    destruct d; [contradiction | ..]; simpl NilEmpty.string_of_uint;
      rewrite lit_String; discriminate.
Qed.

Lemma parseInt_reads_a_prefix_witness :
  isSafeInteger 12 = true
  ∧ isDecimalDigit <$> head (lit "abc") ≠ Some true
  ∧ head (lit "abc") ≠ Some 0x78%N ∧ head (lit "abc") ≠ Some 0x58%N
  ∧ parseInt (Number_toString 12 ++ lit "abc") = Some 12.
Proof.
  split; [reflexivity |].
  split; [discriminate |]. split; [discriminate |]. split; [discriminate |].
  apply (parseInt_reads_a_prefix 12 (lit "abc"));
    [reflexivity | discriminate..].
Defined.

(** ** Which texts [parseInt] reads, and as what *)

Ltac compare_codes :=
  repeat match goal with
         | |- context [(?a <=? ?b)%N] => destruct (N.leb_spec a b)
         end;
  simpl;
  repeat match goal with
         | |- context [?a <? ?b] => destruct (Z.ltb_spec a b)
         end;
  try reflexivity; try lia.

Lemma digitValue_10 (c : N) :
  digitValue 10 c = if isDecimalDigit c then Some (digit_of c) else None.
Proof. unfold digitValue, digit_of, isDecimalDigit. compare_codes. Qed.

Lemma digitValue_16 (c : N) :
  digitValue 16 c = if isHexDigit c then Some (digit_of c) else None.
Proof.
  unfold digitValue, digit_of, isHexDigit, isDecimalDigit. compare_codes.
Qed.

Section Digits.
Context (R : Z) (isD : N → bool).
Hypothesis digitValue_R :
  ∀ c, digitValue R c = if isD c then Some (digit_of c) else None.

(** Every text is a run of digits, as long as possible, and a rest. *)
Lemma digits_split (s : jsstring) :
  ∃ ds rest,
    s = ds ++ rest
    ∧ Forall (λ c, isD c = true) ds
    ∧ isD <$> head rest ≠ Some true.
Proof.
  induction s as [|c s (ds & rest & -> & Hds & Hrest)].
  - exists [], []. split; [reflexivity |]. split; [constructor | discriminate].
  - destruct (isD c) eqn:Hc.
    + exists (c :: ds), rest. split; [reflexivity |].
      split; [constructor; assumption | exact Hrest].
    + exists [], (c :: ds ++ rest). split; [reflexivity |].
      split; [constructor |]. simpl. rewrite Hc. discriminate.
Qed.

(** [parseDigits] on a run of digits followed by a rest that does not begin
    with a digit. *)
Lemma parseDigits_run (ds rest : jsstring) (seen : bool) (acc : Z) :
  Forall (λ c, isD c = true) ds →
  isD <$> head rest ≠ Some true →
  parseDigits R (ds ++ rest) seen acc
  = if seen || negb (bool_decide (ds = []))
    then Some (foldl (λ a c, a * R + digit_of c) acc ds)
    else None.
Proof.
  intros Hds Hrest. revert seen acc.
  induction Hds as [|c ds Hc _ IH]; intros seen acc; simpl.
  - destruct rest as [|c r]; simpl; [destruct seen; reflexivity |].
    rewrite digitValue_R. simpl in Hrest.
    destruct (isD c); [exfalso; apply Hrest; reflexivity |].
    destruct seen; reflexivity.
  - rewrite digitValue_R, Hc, IH. simpl. rewrite orb_true_r. reflexivity.
Qed.

(** [parseDigits] yields a number exactly for the texts that begin with a
    digit, and the number is the value of the leading run of digits. *)
Lemma parseDigits_Some (s : jsstring) (v : Z) :
  parseDigits R s false 0 = Some v
  ↔ ∃ ds rest,
      s = ds ++ rest ∧ ds ≠ []
      ∧ Forall (λ c, isD c = true) ds
      ∧ isD <$> head rest ≠ Some true
      ∧ v = numeral_value R ds.
Proof.
  split.
  - destruct (digits_split s) as (ds & rest & -> & Hds & Hrest).
    rewrite parseDigits_run by assumption. simpl.
    destruct ds as [|c ds]; [discriminate |]. simpl.
    intros [= <-]. exists (c :: ds), rest. repeat split; auto; discriminate.
  - intros (ds & rest & -> & Hne & Hds & Hrest & ->).
    rewrite parseDigits_run by assumption. simpl.
    destruct ds; [contradiction | reflexivity].
Qed.
End Digits.

Lemma stripHexPrefix_Some (s r : jsstring) :
  stripHexPrefix s = Some r
  ↔ ∃ x, (x = 0x78%N ∨ x = 0x58%N) ∧ s = 0x30%N :: x :: r.
Proof.
  destruct s as [|c0 [|c1 s]]; simpl.
  - split; [discriminate | intros (x & _ & [=])].
  - split; [discriminate | intros (x & _ & [=])].
  - destruct (N.eqb_spec c0 48) as [-> | H0]; simpl.
    + destruct (N.eqb_spec c1 120) as [-> | H1]; simpl.
      { split; [intros [= ->]; eauto | intros (x & _ & [= _ ->]); reflexivity]. }
      destruct (N.eqb_spec c1 88) as [-> | H2]; simpl.
      { split; [intros [= ->]; eauto | intros (x & _ & [= _ ->]); reflexivity]. }
      split; [discriminate | intros (x & [-> | ->] & [= -> _]); contradiction].
    + split; [discriminate | intros (x & _ & [= -> _]); contradiction].
Qed.

(** The unsigned part read by [parseInt], in terms of the text. *)
Lemma parseInt_unsigned_reads (sgn body : jsstring) (n : Z) :
  is_sign sgn →
  parseInt_unsigned (sign_value sgn) body = Some n →
  reads_as (sgn ++ body) n.
Proof.
  intros Hsgn. unfold parseInt_unsigned.
  destruct (stripHexPrefix body) as [r |] eqn:Hhex.
  - apply stripHexPrefix_Some in Hhex as (x & Hx & ->).
    destruct (parseDigits 16 r false 0) as [m |] eqn:Hm; [| discriminate].
    intros [= <-].
    apply (parseDigits_Some 16 isHexDigit digitValue_16) in Hm
      as (hs & rest & -> & Hne & Hhs & Hrest & ->).
    apply reads_hexadecimal; assumption.
  - destruct (parseDigits 10 body false 0) as [m |] eqn:Hm; [| discriminate].
    intros [= <-].
    apply (parseDigits_Some 10 isDecimalDigit digitValue_10) in Hm
      as (ds & rest & -> & Hne & Hds & Hrest & ->).
    apply reads_decimal; try assumption.
    intros ->. simpl in Hhex.
    destruct rest as [|c rest]; [split; discriminate |]. simpl in Hhex |- *.
    destruct (N.eqb_spec c 120) as [-> | H1]; [discriminate |].
    destruct (N.eqb_spec c 88) as [-> | H2]; [discriminate |].
    split; congruence.
Qed.

Lemma parseInt_unsigned_decimal (sign : Z) (ds rest : jsstring) :
  ds ≠ [] →
  Forall (λ c, isDecimalDigit c = true) ds →
  isDecimalDigit <$> head rest ≠ Some true →
  (ds = [0x30%N] → head rest ≠ Some 0x78%N ∧ head rest ≠ Some 0x58%N) →
  parseInt_unsigned sign (ds ++ rest) = Some (sign * numeral_value 10 ds).
Proof.
  intros Hne Hds Hrest Hhex. unfold parseInt_unsigned.
  assert (Hnone : stripHexPrefix (ds ++ rest) = None).
  { destruct (stripHexPrefix (ds ++ rest)) as [r |] eqn:E; [| reflexivity].
    exfalso. apply stripHexPrefix_Some in E as (x & Hx & E).
    destruct ds as [|c0 [|c1 ds]]; [contradiction | |].
    - simpl in E. injection E as -> E.
      destruct (Hhex eq_refl) as [H1 H2]. rewrite E in H1, H2. simpl in H1, H2.
      destruct Hx as [-> | ->]; [apply H1 | apply H2]; reflexivity.
    - simpl in E. injection E as _ -> _.
      inversion Hds as [|? ? _ Hds']. inversion Hds' as [|? ? Hc1 _].
      destruct Hx as [-> | ->]; discriminate Hc1. }
  rewrite Hnone.
  rewrite (proj2 (parseDigits_Some 10 isDecimalDigit digitValue_10 _
                    (numeral_value 10 ds))); [reflexivity |].
  exists ds, rest. auto.
Qed.

Lemma parseInt_unsigned_hexadecimal (sign : Z) (hs rest : jsstring) (x : N) :
  x = 0x78%N ∨ x = 0x58%N →
  hs ≠ [] →
  Forall (λ c, isHexDigit c = true) hs →
  isHexDigit <$> head rest ≠ Some true →
  parseInt_unsigned sign (0x30%N :: x :: hs ++ rest)
  = Some (sign * numeral_value 16 hs).
Proof.
  intros Hx Hne Hhs Hrest. unfold parseInt_unsigned.
  rewrite (proj2 (stripHexPrefix_Some _ (hs ++ rest))) by eauto.
  rewrite (proj2 (parseDigits_Some 16 isHexDigit digitValue_16 _
                    (numeral_value 16 hs))); [reflexivity |].
  exists hs, rest. auto.
Qed.

(** [parseInt] yields the number [n] exactly for the texts that, after the
    leading white space, begin with a numeral denoting [n]. *)
Lemma parseInt_Some_iff (s : jsstring) (n : Z) :
  parseInt s = Some n ↔ reads_as (trimStart s) n.
Proof.
  rewrite parseInt_unfold. split.
  - destruct (trimStart s) as [|c r]; [discriminate |].
    destruct (N.eqb_spec c 45) as [-> | Hm].
    { apply (parseInt_unsigned_reads [0x2D%N] r n). right. right. reflexivity. }
    destruct (N.eqb_spec c 43) as [-> | Hp].
    { apply (parseInt_unsigned_reads [0x2B%N] r n). right. left. reflexivity. }
    apply (parseInt_unsigned_reads [] (c :: r) n). left. reflexivity.
  - intros Hreads. remember (trimStart s) as t eqn:Ht. clear Ht s.
    destruct Hreads as [sgn ds rest Hsgn Hne Hds Hrest Hhex
                       | sgn hs rest x Hsgn Hx Hne Hhs Hrest].
    + pose proof (parseInt_unsigned_decimal (sign_value sgn) ds rest
                    Hne Hds Hrest Hhex) as Hun.
      destruct Hsgn as [-> | [-> | ->]]; simpl app; [| exact Hun | exact Hun].
      destruct ds as [|c ds]; [contradiction |]. simpl app in *.
      inversion Hds as [|? ? Hc _].
      destruct (decimal_digit_facts _ Hc) as (_ & -> & -> & _). exact Hun.
    + pose proof (parseInt_unsigned_hexadecimal (sign_value sgn) hs rest x
                    Hx Hne Hhs Hrest) as Hun.
      destruct Hsgn as [-> | [-> | ->]]; exact Hun.
Qed.

Lemma parseInt_None_iff (s : jsstring) :
  parseInt s = None ↔ ¬ ∃ n, reads_as (trimStart s) n.
Proof.
  split.
  - intros Hnone (n & Hn). apply parseInt_Some_iff in Hn. congruence.
  - intros Hno. destruct (parseInt s) as [n |] eqn:Hs; [| reflexivity].
    exfalso. apply Hno. exists n. apply parseInt_Some_iff, Hs.
Qed.


Example reads_examples :
  reads_as (lit "12abc") 12 ∧ reads_as (lit "3.7") 3 ∧ reads_as (lit "-7") (-7)
  ∧ reads_as (lit "0x1F") 31 ∧ reads_as (lit "+0") 0
  ∧ (¬ ∃ n, reads_as (lit "abc") n) ∧ (¬ ∃ n, reads_as (lit "0xg") n)
  ∧ (¬ ∃ n, reads_as (lit "") n) ∧ (¬ ∃ n, reads_as (lit "-") n).
Proof.
  repeat apply conj;
    match goal with
    | |- reads_as ?s ?n => apply (proj1 (parseInt_Some_iff s n)); reflexivity
    | |- ¬ (∃ n, reads_as ?s n) => apply (proj1 (parseInt_None_iff s)); reflexivity
    end.
Qed.



